(** * StoreProvider: a key-value facade over Map, localStorage and sessionStorage

    Shallow embedding of [src/store-provider.js] and the properties of its
    specification.  JavaScript strings are sequences of UTF-16 code units,
    the platform functions the class calls ([String.prototype.trim],
    [JSON.stringify], [JSON.parse], [Map], the Web Storage interface) are
    modelled after ECMA-262 and the HTML standard, and the class itself is
    translated method by method. *)

From Stdlib Require Import NArith ZArith Lia List Ascii String.
From Stdlib Require Import DecimalString DecimalFacts DecimalPos DecimalZ.
From stdpp Require Import base option list gmap.

Local Open Scope N_scope.

(** ** JavaScript strings *)

(** A string value is a finite sequence of 16-bit code units. *)
Abbreviation jsstring := (list N).

Definition is_code_unit (c : N) : bool := c <? 65536.

(** [str "abc"] is the JavaScript string with the code units of the literal. *)
Fixpoint str (s : string) : jsstring :=
  match s with
  | EmptyString => []
  | String a r => N_of_ascii a :: str r
  end.

(** WhiteSpace and LineTerminator code points (ECMA-262, 12.2 and 12.3),
    the characters [String.prototype.trim] strips. *)
Definition is_js_whitespace (c : N) : bool :=
  (c =? 9) || (c =? 10) || (c =? 11) || (c =? 12) || (c =? 13) || (c =? 32)
  || (c =? 160) || (c =? 5760) || ((8192 <=? c) && (c <=? 8202))
  || (c =? 8232) || (c =? 8233) || (c =? 8239) || (c =? 8287)
  || (c =? 12288) || (c =? 65279).

Fixpoint trim_start (s : jsstring) : jsstring :=
  match s with
  | [] => []
  | c :: r => if is_js_whitespace c then trim_start r else s
  end.

Definition trim_end (s : jsstring) : jsstring := rev (trim_start (rev s)).

(** [String.prototype.trim] *)
Definition trim (s : jsstring) : jsstring := trim_end (trim_start s).

Definition all_whitespace (s : jsstring) : Prop :=
  Forall (fun c => is_js_whitespace c = true) s.

(** ** JavaScript numbers

    IEEE-754 arithmetic is left abstract: a number type comes with the three
    operations [JSON.stringify] and [JSON.parse] need from it.
    [Number_toString] is Number::toString with radix 10, [StringToNumber]
    gives the numeric value of a JSON number token, [Number_isFinite]
    separates NaN and the infinities from the rest. *)
Class JSNumber (number : Type) := {
  Number_isFinite : number -> bool;
  Number_toString : number -> jsstring;
  StringToNumber : jsstring -> number;
}.

(** ** JSON values: the values [setValue] accepts and [getValue] returns *)

#[local] Set Warnings "-register-all".

Inductive json (number : Type) : Type :=
| JNull
| JBool (b : bool)
| JNum (n : number)
| JStr (s : jsstring)
| JArr (elements : list (json number))
| JObj (members : list (jsstring * json number)).

Arguments JNull {number}.
Arguments JBool {number} b.
Arguments JNum {number} n.
Arguments JStr {number} s.
Arguments JArr {number} elements.
Arguments JObj {number} members.

(** *** Character classes of the JSON grammar *)

Definition is_json_ws (c : N) : bool :=
  (c =? 9) || (c =? 10) || (c =? 13) || (c =? 32).

Definition is_digit (c : N) : bool := (48 <=? c) && (c <=? 57).

Definition is_leading_surrogate (c : N) : bool := (55296 <=? c) && (c <=? 56319).
Definition is_trailing_surrogate (c : N) : bool := (56320 <=? c) && (c <=? 57343).

(** *** JSON.stringify *)

Definition hex_digit (d : N) : N := if d <? 10 then 48 + d else 87 + d.

(** UnicodeEscape: a backslash, [u] and four lowercase hexadecimal digits. *)
Definition UnicodeEscape (c : N) : jsstring :=
  [92; 117; hex_digit (c / 4096 mod 16); hex_digit (c / 256 mod 16);
   hex_digit (c / 16 mod 16); hex_digit (c mod 16)].

(** One code point that is not half of a well-formed surrogate pair. *)
Definition quote_code_unit (c : N) : jsstring :=
  if c =? 8 then [92; 98]
  else if c =? 9 then [92; 116]
  else if c =? 10 then [92; 110]
  else if c =? 12 then [92; 102]
  else if c =? 13 then [92; 114]
  else if c =? 34 then [92; 34]
  else if c =? 92 then [92; 92]
  else if (c <? 32) || is_leading_surrogate c || is_trailing_surrogate c
       then UnicodeEscape c
  else [c].

(** The characters between the quotes of QuoteJSONString: the string is read
    code point by code point, a leading surrogate followed by a trailing one
    is copied as a pair, every other surrogate is escaped. *)
Fixpoint quote_chars (s : jsstring) : jsstring :=
  match s with
  | [] => []
  | c :: r =>
      match r with
      | d :: r' =>
          if is_leading_surrogate c && is_trailing_surrogate d
          then c :: d :: quote_chars r'
          else quote_code_unit c ++ quote_chars r
      | [] => quote_code_unit c
      end
  end.

Definition QuoteJSONString (s : jsstring) : jsstring :=
  34 :: quote_chars s ++ [34].

Fixpoint join_comma (l : list jsstring) : jsstring :=
  match l with
  | [] => []
  | [x] => x
  | x :: r => x ++ 44 :: join_comma r
  end.

(** *** JSON.parse: lexical part *)

Fixpoint skip_ws (s : jsstring) : jsstring :=
  match s with
  | c :: r => if is_json_ws c then skip_ws r else s
  | [] => []
  end.

(** [strip_prefix p s] is the rest of [s] after the literal [p]. *)
Fixpoint strip_prefix (p s : jsstring) : option jsstring :=
  match p with
  | [] => Some s
  | a :: p' =>
      match s with
      | b :: s' => if a =? b then strip_prefix p' s' else None
      | [] => None
      end
  end.

Fixpoint span_digits (s : jsstring) : jsstring * jsstring :=
  match s with
  | c :: r =>
      if is_digit c then let '(d, t) := span_digits r in (c :: d, t) else ([], s)
  | [] => ([], [])
  end.

Definition scan_sign (s : jsstring) : jsstring * jsstring :=
  match s with
  | c :: r => if c =? 45 then ([45], r) else ([], s)
  | [] => ([], [])
  end.

Definition scan_int (s : jsstring) : option (jsstring * jsstring) :=
  match s with
  | c :: r =>
      if c =? 48 then Some ([48], r)
      else if is_digit c then let '(d, t) := span_digits r in Some (c :: d, t)
      else None
  | [] => None
  end.

Definition scan_frac (s : jsstring) : option (jsstring * jsstring) :=
  match s with
  | c :: r =>
      if c =? 46 then
        match span_digits r with
        | ([], _) => None
        | (d, t) => Some (46 :: d, t)
        end
      else Some ([], s)
  | [] => Some ([], [])
  end.

Definition scan_exp_sign (s : jsstring) : jsstring * jsstring :=
  match s with
  | c :: r => if (c =? 43) || (c =? 45) then ([c], r) else ([], s)
  | [] => ([], [])
  end.

Definition scan_exp (s : jsstring) : option (jsstring * jsstring) :=
  match s with
  | c :: r =>
      if (c =? 101) || (c =? 69) then
        let '(sg, r1) := scan_exp_sign r in
        match span_digits r1 with
        | ([], _) => None
        | (d, t) => Some (c :: sg ++ d, t)
        end
      else Some ([], s)
  | [] => Some ([], [])
  end.

(** The longest JSON number token at the head of [s] and what follows it:
    an optional minus, an integer without leading zeros, an optional
    fraction and an optional exponent. *)
Definition scan_number (s : jsstring) : option (jsstring * jsstring) :=
  let '(sg, s1) := scan_sign s in
  match scan_int s1 with
  | None => None
  | Some (i, s2) =>
      match scan_frac s2 with
      | None => None
      | Some (f, s3) =>
          match scan_exp s3 with
          | None => None
          | Some (e, s4) => Some (sg ++ i ++ f ++ e, s4)
          end
      end
  end.

Definition hex_value (c : N) : option N :=
  if is_digit c then Some (c - 48)
  else if (97 <=? c) && (c <=? 102) then Some (c - 87)
  else if (65 <=? c) && (c <=? 70) then Some (c - 55)
  else None.

Definition hex4 (a b c d : N) : option N :=
  match hex_value a, hex_value b, hex_value c, hex_value d with
  | Some x, Some y, Some z, Some w => Some (4096 * x + 256 * y + 16 * z + w)
  | _, _, _, _ => None
  end.

(** The character a single-character escape stands for. *)
Definition unescape (e : N) : option N :=
  if e =? 34 then Some 34
  else if e =? 92 then Some 92
  else if e =? 47 then Some 47
  else if e =? 98 then Some 8
  else if e =? 102 then Some 12
  else if e =? 110 then Some 10
  else if e =? 114 then Some 13
  else if e =? 116 then Some 9
  else None.

(** The characters of a JSON string after its opening quote, up to and
    including the closing quote; control characters must be escaped. *)
Fixpoint parse_string_chars (s : jsstring) : option (jsstring * jsstring) :=
  match s with
  | [] => None
  | c :: r =>
      if c =? 34 then Some ([], r)
      else if c =? 92 then
        match r with
        | [] => None
        | e :: r1 =>
            if e =? 117 then
              match r1 with
              | h1 :: h2 :: h3 :: h4 :: r2 =>
                  match hex4 h1 h2 h3 h4 with
                  | Some u =>
                      match parse_string_chars r2 with
                      | Some (x, t) => Some (u :: x, t)
                      | None => None
                      end
                  | None => None
                  end
              | _ => None
              end
            else
              match unescape e with
              | Some u =>
                  match parse_string_chars r1 with
                  | Some (x, t) => Some (u :: x, t)
                  | None => None
                  end
              | None => None
              end
        end
      else if c <? 32 then None
      else
        match parse_string_chars r with
        | Some (x, t) => Some (c :: x, t)
        | None => None
        end
  end.

(** *** Objects built by JSON.parse

    Members are kept in the order of their first occurrence; a repeated
    key overwrites the value stored for it (CreateDataProperty).
    JavaScript moves integer-like keys to the front when it enumerates an
    object; that order plays no part in deep equality. *)

Fixpoint object_put {A} (o : list (jsstring * A)) (k : jsstring) (v : A)
  : list (jsstring * A) :=
  match o with
  | [] => [(k, v)]
  | (k', v') :: r =>
      if decide (k' = k) then (k', v) :: r else (k', v') :: object_put r k v
  end.

Definition object_of_members {A} (m : list (jsstring * A)) : list (jsstring * A) :=
  fold_left (fun o kv => object_put o (fst kv) (snd kv)) m [].

Section JSON.
Context {number : Type} `{JSNumber number}.

(** SerializeJSONProperty without replacer and indentation. *)
Fixpoint JSON_stringify (v : json number) : jsstring :=
  match v with
  | JNull => str "null"
  | JBool true => str "true"
  | JBool false => str "false"
  | JNum n => if Number_isFinite n then Number_toString n else str "null"
  | JStr s => QuoteJSONString s
  | JArr l => 91 :: join_comma (map JSON_stringify l) ++ [93]
  | JObj m =>
      123 :: join_comma
               (map (fun kv => QuoteJSONString (fst kv) ++ 58 :: JSON_stringify (snd kv)) m)
          ++ [125]
  end.

(** *** JSON.parse: values *)

(** true, false, null and numbers. *)
Definition parse_atom (s : jsstring) : option (json number * jsstring) :=
  match strip_prefix (str "true") s with
  | Some t => Some (JBool true, t)
  | None =>
      match strip_prefix (str "false") s with
      | Some t => Some (JBool false, t)
      | None =>
          match strip_prefix (str "null") s with
          | Some t => Some (JNull, t)
          | None =>
              match scan_number s with
              | Some (tok, t) => Some (JNum (StringToNumber tok), t)
              | None => None
              end
          end
      end
  end.

(** Recursive descent over the JSON grammar.  [fuel] bounds the number of
    nested calls; [JSON_parse] below starts with more than the text can use. *)
Fixpoint parse_value (fuel : nat) (s : jsstring) {struct fuel}
  : option (json number * jsstring) :=
  match fuel with
  | O => None
  | S fuel' =>
      match skip_ws s with
      | [] => None
      | c :: r =>
          if c =? 34 then
            match parse_string_chars r with
            | Some (x, t) => Some (JStr x, t)
            | None => None
            end
          else if c =? 91 then
            match skip_ws r with
            | [] => None
            | d :: t =>
                if d =? 93 then Some (JArr [], t)
                else
                  match parse_elements fuel' r with
                  | Some (l, u) => Some (JArr l, u)
                  | None => None
                  end
            end
          else if c =? 123 then
            match skip_ws r with
            | [] => None
            | d :: t =>
                if d =? 125 then Some (JObj [], t)
                else
                  match parse_members fuel' r with
                  | Some (m, u) => Some (JObj (object_of_members m), u)
                  | None => None
                  end
            end
          else parse_atom (c :: r)
      end
  end

with parse_elements (fuel : nat) (s : jsstring) {struct fuel}
  : option (list (json number) * jsstring) :=
  match fuel with
  | O => None
  | S fuel' =>
      match parse_value fuel' s with
      | None => None
      | Some (v, t) =>
          match skip_ws t with
          | [] => None
          | c :: u =>
              if c =? 44 then
                match parse_elements fuel' u with
                | Some (l, w) => Some (v :: l, w)
                | None => None
                end
              else if c =? 93 then Some ([v], u)
              else None
          end
      end
  end

with parse_members (fuel : nat) (s : jsstring) {struct fuel}
  : option (list (jsstring * json number) * jsstring) :=
  match fuel with
  | O => None
  | S fuel' =>
      match skip_ws s with
      | [] => None
      | q :: r =>
          if q =? 34 then
            match parse_string_chars r with
            | None => None
            | Some (k, t) =>
                match skip_ws t with
                | [] => None
                | c :: u =>
                    if c =? 58 then
                      match parse_value fuel' u with
                      | None => None
                      | Some (v, w) =>
                          match skip_ws w with
                          | [] => None
                          | e :: x =>
                              if e =? 44 then
                                match parse_members fuel' x with
                                | Some (m, y) => Some ((k, v) :: m, y)
                                | None => None
                                end
                              else if e =? 125 then Some ([(k, v)], x)
                              else None
                          end
                      end
                    else None
                end
            end
          else None
      end
  end.

(** [JSON.parse text]: one value, surrounded by optional white space.
    [None] stands for the SyntaxError the platform throws. *)
Definition JSON_parse (text : jsstring) : option (json number) :=
  match parse_value (S (length text)) text with
  | Some (v, t) => match skip_ws t with [] => Some v | _ :: _ => None end
  | None => None
  end.

End JSON.

(** ** The platform: exceptions, Map objects and Web Storage *)

Inductive exception : Type :=
| JsError            (* new Error(...) *)
| JsTypeError        (* TypeError *)
| JsReferenceError   (* ReferenceError: window is not defined *)
| SecurityError      (* from reading window.localStorage or window.sessionStorage *)
| DOMException.      (* QuotaExceededError and the like, from Storage.setItem *)

Inductive Result (A : Type) : Type :=
| Ok (a : A)
| Throw (e : exception).

Arguments Ok {A} a.
Arguments Throw {A} e.

(** A Web Storage object: its items, and the conditions under which the
    user agent refuses a write (quota, privacy mode, disabled storage).
    [setItem] throws exactly when [denies items key value] holds. *)
Record Storage : Type := {
  items : gmap jsstring jsstring;
  denies : gmap jsstring jsstring -> jsstring -> jsstring -> bool;
}.

(** The objects the program can reach: the global [window], when there is
    one, with its two storage objects, and the [Map] objects allocated so far.
    The user agent may deny the page its storage altogether (an opaque
    origin, storage disabled by policy): reading the [localStorage] or
    [sessionStorage] property of [window] then throws a SecurityError instead
    of giving the object. *)
Record World : Type := {
  window : bool;
  localStorage_blocked : bool;
  sessionStorage_blocked : bool;
  window_localStorage : Storage;
  window_sessionStorage : Storage;
  maps : gmap nat (gmap jsstring jsstring);
}.

(** A reference to the object behind [#currentStorage]:
    [Map<string, string> | Storage]. *)
Inductive StorageRef : Type :=
| MapRef (id : nat)
| LocalStorageRef
| SessionStorageRef.

#[export] Instance StorageRef_eq_dec : EqDecision StorageRef.
Proof. solve_decision. Defined.

(** Computations that read and write the world and may throw; the world
    reached is kept when an exception is thrown. *)
Definition M (A : Type) : Type := World -> Result A * World.

Definition ret {A} (a : A) : M A := fun w => (Ok a, w).

Definition throw {A} (e : exception) : M A := fun w => (Throw e, w).

Definition bind {A B} (m : M A) (k : A -> M B) : M B :=
  fun w =>
    match m w with
    | (Ok a, w') => k a w'
    | (Throw e, w') => (Throw e, w')
    end.

(** [try { body } catch { handler }] *)
Definition try_catch {A} (body : M A) (handler : M A) : M A :=
  fun w =>
    match body w with
    | (Ok a, w') => (Ok a, w')
    | (Throw _, w') => handler w'
    end.

Notation "x <- m ;; k" := (bind m (fun x => k))
  (at level 20, m at level 99, k at level 200, only parsing).
Notation "m ;; k" := (bind m (fun _ => k))
  (at level 100, k at level 200, only parsing, right associativity).

Definition set_maps (w : World) (ms : gmap nat (gmap jsstring jsstring)) : World :=
  {| window := window w;
     localStorage_blocked := localStorage_blocked w;
     sessionStorage_blocked := sessionStorage_blocked w;
     window_localStorage := window_localStorage w;
     window_sessionStorage := window_sessionStorage w;
     maps := ms |}.

Definition set_localStorage (w : World) (s : Storage) : World :=
  {| window := window w;
     localStorage_blocked := localStorage_blocked w;
     sessionStorage_blocked := sessionStorage_blocked w;
     window_localStorage := s;
     window_sessionStorage := window_sessionStorage w;
     maps := maps w |}.

Definition set_sessionStorage (w : World) (s : Storage) : World :=
  {| window := window w;
     localStorage_blocked := localStorage_blocked w;
     sessionStorage_blocked := sessionStorage_blocked w;
     window_localStorage := window_localStorage w;
     window_sessionStorage := s;
     maps := maps w |}.

(** [new Map()] *)
Definition new_Map : M StorageRef :=
  fun w =>
    let id := fresh (dom (maps w)) in
    (Ok (MapRef id), set_maps w (<[id := ∅]> (maps w))).

(** The contents of the Map behind a reference. *)
Definition map_contents (w : World) (id : nat) : gmap jsstring jsstring :=
  default ∅ (maps w !! id).

(** [m.get(key)], [m.set(key, raw)], [m.delete(key)]: a Storage object has
    no such methods, the call throws a TypeError there. *)
Definition Map_get (m : StorageRef) (key : jsstring) : M (option jsstring) :=
  match m with
  | MapRef id => fun w => (Ok (map_contents w id !! key), w)
  | _ => throw JsTypeError
  end.

Definition Map_set (m : StorageRef) (key raw : jsstring) : M unit :=
  match m with
  | MapRef id =>
      fun w => (Ok tt, set_maps w (<[id := <[key := raw]> (map_contents w id)]> (maps w)))
  | _ => throw JsTypeError
  end.

Definition Map_delete (m : StorageRef) (key : jsstring) : M unit :=
  match m with
  | MapRef id =>
      fun w => (Ok tt, set_maps w (<[id := delete key (map_contents w id)]> (maps w)))
  | _ => throw JsTypeError
  end.

Definition Storage_get (s : Storage) (key : jsstring) : option jsstring :=
  items s !! key.

Definition Storage_put (s : Storage) (key value : jsstring) : option Storage :=
  if denies s (items s) key value then None
  else Some {| items := <[key := value]> (items s); denies := denies s |}.

Definition Storage_del (s : Storage) (key : jsstring) : Storage :=
  {| items := delete key (items s); denies := denies s |}.

(** [s.getItem(key)], [s.setItem(key, value)], [s.removeItem(key)]: a Map
    has no such methods. *)
Definition getItem (s : StorageRef) (key : jsstring) : M (option jsstring) :=
  match s with
  | LocalStorageRef => fun w => (Ok (Storage_get (window_localStorage w) key), w)
  | SessionStorageRef => fun w => (Ok (Storage_get (window_sessionStorage w) key), w)
  | MapRef _ => throw JsTypeError
  end.

Definition setItem (s : StorageRef) (key value : jsstring) : M unit :=
  match s with
  | LocalStorageRef =>
      fun w =>
        match Storage_put (window_localStorage w) key value with
        | Some s' => (Ok tt, set_localStorage w s')
        | None => (Throw DOMException, w)
        end
  | SessionStorageRef =>
      fun w =>
        match Storage_put (window_sessionStorage w) key value with
        | Some s' => (Ok tt, set_sessionStorage w s')
        | None => (Throw DOMException, w)
        end
  | MapRef _ => throw JsTypeError
  end.

Definition removeItem (s : StorageRef) (key : jsstring) : M unit :=
  match s with
  | LocalStorageRef =>
      fun w => (Ok tt, set_localStorage w (Storage_del (window_localStorage w) key))
  | SessionStorageRef =>
      fun w => (Ok tt, set_sessionStorage w (Storage_del (window_sessionStorage w) key))
  | MapRef _ => throw JsTypeError
  end.

(** [typeof window === 'undefined'] *)
Definition typeof_window_undefined : M bool :=
  fun w => (Ok (negb (window w)), w).

(** [window.localStorage] and [window.sessionStorage]: without a global
    [window] the reference itself throws; with one, the property read throws
    a SecurityError when the user agent denies the page its storage, and
    otherwise gives the storage object, whatever that object then refuses. *)
Definition get_window_localStorage : M StorageRef :=
  fun w =>
    if window w then
      if localStorage_blocked w then (Throw SecurityError, w)
      else (Ok LocalStorageRef, w)
    else (Throw JsReferenceError, w).

Definition get_window_sessionStorage : M StorageRef :=
  fun w =>
    if window w then
      if sessionStorage_blocked w then (Throw SecurityError, w)
      else (Ok SessionStorageRef, w)
    else (Throw JsReferenceError, w).

(** ** The class StoreProvider *)

(** [StoreType]: one of the strings "memory", "localStorage", "sessionStorage". *)
Inductive StoreType : Type := memory | localStorage | sessionStorage.

(** A value handed to the constructor in an option: absent, a string, or
    anything else (a number, null, an object, ...). *)
Inductive any : Type :=
| Undefined
| StringValue (s : jsstring)
| OtherValue.

(** [StoreProviderOptions] *)
Module Options.
Record t : Type := { storeType : any; prefix : any }.
End Options.

(** A destructuring default [x = d]: it applies when the property is
    undefined. *)
Definition default_value (x : any) (d : jsstring) : any :=
  match x with
  | Undefined => StringValue d
  | _ => x
  end.

(** [['memory', 'localStorage', 'sessionStorage'].includes(storeType)],
    giving the member found. *)
Definition supported_storeType (storeType : any) : option StoreType :=
  match storeType with
  | StringValue s =>
      if decide (s = str "memory") then Some memory
      else if decide (s = str "localStorage") then Some localStorage
      else if decide (s = str "sessionStorage") then Some sessionStorage
      else None
  | _ => None
  end.

(** [StoreAdapter] *)
Record StoreAdapter : Type := {
  getRaw : jsstring -> M (option jsstring);
  setRaw : jsstring -> jsstring -> M unit;
  remove : jsstring -> M unit;
}.

(** The private fields of an instance. *)
Record StoreProvider : Type := {
  storeType : StoreType;
  prefix : jsstring;
  isServer : bool;
  currentStorage : StorageRef;
  store : StoreAdapter;
}.

(** [static STORAGE_FACTORIES] *)
Definition STORAGE_FACTORIES (storeType : StoreType) : M StorageRef :=
  match storeType with
  | memory => new_Map
  | localStorage => get_window_localStorage
  | sessionStorage => get_window_sessionStorage
  end.

Definition is_memory (storeType : StoreType) : bool :=
  match storeType with memory => true | _ => false end.

(** [#canUseWebStorage(storage)] *)
Definition canUseWebStorage (storage : StorageRef) : M bool :=
  try_catch
    (let k := str "__ws_test__" in
     setItem storage k (str "1") ;;
     removeItem storage k ;;
     ret true)
    (ret false).

(** [#initStorage()], as a function of the fields it reads, [#storeType] and
    [#isServer], to the fields it writes, [#storeType] and [#currentStorage].
    Every [StoreType] has a factory, so the [if (!factory) throw] of the
    source is never taken. *)
Definition initStorage (this_storeType : StoreType) (this_isServer : bool)
  : M (StoreType * StorageRef) :=
  let this_storeType :=
    if this_isServer && negb (is_memory this_storeType) then memory else this_storeType in
  let storeType := this_storeType in
  let factory := STORAGE_FACTORIES storeType in
  this_currentStorage <- factory ;;
  if negb (is_memory this_storeType) then
    let s := this_currentStorage in
    ok <- canUseWebStorage s ;;
    if negb ok then
      this_currentStorage <- STORAGE_FACTORIES memory ;;
      ret (memory, this_currentStorage)
    else ret (this_storeType, this_currentStorage)
  else ret (this_storeType, this_currentStorage).

(** [#adaptStorage()], as a function of [#storeType] and [#currentStorage]. *)
Definition adaptStorage (this_storeType : StoreType) (this_currentStorage : StorageRef)
  : StoreAdapter :=
  let c := this_currentStorage in
  if is_memory this_storeType then
    let m := c in
    {| getRaw := fun key => Map_get m key;  (* [?? null]: undefined and null are both [None] *)
       setRaw := fun key raw => Map_set m key raw;
       remove := fun key => Map_delete m key |}
  else
    let s := c in
    {| getRaw := fun key => getItem s key;
       setRaw := fun key raw => setItem s key raw;
       remove := fun key => removeItem s key |}.

(** [constructor({ storeType = 'localStorage', prefix = 'test-app' } = {})] *)
Definition new_StoreProvider (options : Options.t) : M StoreProvider :=
  let storeType := default_value (Options.storeType options) (str "localStorage") in
  let prefix := default_value (Options.prefix options) (str "test-app") in
  match supported_storeType storeType with
  | None => throw JsError
  | Some storeType =>
      match prefix with
      | StringValue prefix =>
          let this_storeType := storeType in
          let this_prefix := trim prefix in
          this_isServer <- typeof_window_undefined ;;
          init <- initStorage this_storeType this_isServer ;;
          let '(this_storeType, this_currentStorage) := init in
          ret {| storeType := this_storeType;
                 prefix := this_prefix;
                 isServer := this_isServer;
                 currentStorage := this_currentStorage;
                 store := adaptStorage this_storeType this_currentStorage |}
      | _ => throw JsTypeError
      end
  end.

(** [#getKey(key)]: [!key] holds for a missing key and for the empty string;
    an empty prefix is falsy as well. *)
Definition getKey (this : StoreProvider) (key : option jsstring) : jsstring :=
  match key with
  | None => prefix this
  | Some [] => prefix this
  | Some key =>
      match prefix this with
      | [] => key
      | _ :: _ => prefix this ++ str ":" ++ key
      end
  end.

Section Values.
Context {number : Type} `{JSNumber number}.

(** [#serialize(value)] *)
Definition serialize (value : json number) : jsstring := JSON_stringify value.

(** [#deserialize(raw)] *)
Definition deserialize (raw : option jsstring) : json number :=
  match raw with
  | None => JNull
  | Some raw =>
      match JSON_parse raw with
      | Some v => v
      | None => JStr raw
      end
  end.

(** [setValue(key, value)] *)
Definition setValue (this : StoreProvider) (key : jsstring) (value : json number) : M unit :=
  let storeKey := getKey this (Some key) in
  setRaw (store this) storeKey (serialize value).

(** [getValue(key)] *)
Definition getValue (this : StoreProvider) (key : jsstring) : M (json number) :=
  let storeKey := getKey this (Some key) in
  raw <- getRaw (store this) storeKey ;;
  ret (deserialize raw).

End Values.

(** [removeValue(key)] *)
Definition removeValue (this : StoreProvider) (key : jsstring) : M unit :=
  let storeKey := getKey this (Some key) in
  remove (store this) storeKey.

(** ** The integers as numbers

    Integers, printed in decimal the way Number::toString prints integral
    values below 10^21, give a number type to run the definitions on.  The
    instance is a sample for integers of that range: it reads a token by its
    integer part, so a token with a fraction or an exponent is not read as
    the platform reads it, and it prints every integer in full where the
    platform switches to an exponent from 10^21 on.  The properties are
    stated for every number type; only the sample runs use this one, on
    small integers. *)

Fixpoint unstr (s : jsstring) : string :=
  match s with
  | [] => EmptyString
  | c :: r => String (ascii_of_N c) (unstr r)
  end.

Fixpoint integer_part (s : jsstring) : jsstring :=
  match s with
  | c :: r => if (c =? 45) || is_digit c then c :: integer_part r else []
  | [] => []
  end.

Definition Z_toString (z : Z) : jsstring :=
  str (NilZero.string_of_int (Z.to_int z)).

Definition Z_of_token (tok : jsstring) : Z :=
  match NilZero.int_of_string (unstr (integer_part tok)) with
  | Some i => Z.of_int i
  | None => 0%Z
  end.

#[export] Instance Z_JSNumber : JSNumber Z := {|
  Number_isFinite := fun _ => true;
  Number_toString := Z_toString;
  StringToNumber := Z_of_token;
|}.

(** ** Sample worlds *)

Definition open_storage (m : gmap jsstring jsstring) : Storage :=
  {| items := m; denies := fun _ _ _ => false |}.

Definition blocked_storage : Storage :=
  {| items := ∅; denies := fun _ _ _ => true |}.

(** A browser whose localStorage works and whose sessionStorage refuses
    every write. *)
Definition browser (local : gmap jsstring jsstring) : World :=
  {| window := true;
     localStorage_blocked := false;
     sessionStorage_blocked := false;
     window_localStorage := open_storage local;
     window_sessionStorage := blocked_storage;
     maps := ∅ |}.

(** Server-side execution: no [window]. *)
Definition server : World :=
  {| window := false;
     localStorage_blocked := false;
     sessionStorage_blocked := false;
     window_localStorage := blocked_storage;
     window_sessionStorage := blocked_storage;
     maps := ∅ |}.

(** A browser that denies the page its storage: an opaque origin, or
    storage disabled by policy. *)
Definition locked_browser : World :=
  {| window := true;
     localStorage_blocked := true;
     sessionStorage_blocked := true;
     window_localStorage := open_storage ∅;
     window_sessionStorage := open_storage ∅;
     maps := ∅ |}.

Definition options (storeType prefix : string) : Options.t :=
  {| Options.storeType := StringValue (str storeType);
     Options.prefix := StringValue (str prefix) |}.

(** * Vocabulary of the properties *)

(** The backend kind and the object behind it agree. *)
Definition backend_consistent (this_storeType : StoreType) (c : StorageRef) : Prop :=
  match this_storeType with
  | memory => exists id, c = MapRef id
  | localStorage => c = LocalStorageRef
  | sessionStorage => c = SessionStorageRef
  end.

(** The key-to-raw-string mapping of a storage object. *)
Definition stored (c : StorageRef) (w : World) : gmap jsstring jsstring :=
  match c with
  | MapRef id => map_contents w id
  | LocalStorageRef => items (window_localStorage w)
  | SessionStorageRef => items (window_sessionStorage w)
  end.

(** The key-to-raw-string mapping of the object behind [#currentStorage]. *)
Definition backing_store (this : StoreProvider) (w : World) : gmap jsstring jsstring :=
  stored (currentStorage this) w.

(** The invariant construction establishes: the adapter is the one
    [#adaptStorage] builds for a backend of the declared kind. *)
Definition adapter_ok (this : StoreProvider) : Prop :=
  store this = adaptStorage (storeType this) (currentStorage this)
  /\ backend_consistent (storeType this) (currentStorage this).

(** The options the constructor rejects: a [storeType] that is given and is
    not one of the three names, a [prefix] that is given and is not a string. *)
Definition unsupported_storeType (o : Options.t) : Prop :=
  Options.storeType o <> Undefined /\ supported_storeType (Options.storeType o) = None.

Definition non_string_prefix (o : Options.t) : Prop :=
  Options.prefix o = OtherValue.

(** The storage object a persistent backend kind stands for. *)
Definition persistent_backend (st : StoreType) : option StorageRef :=
  match st with
  | memory => None
  | localStorage => Some LocalStorageRef
  | sessionStorage => Some SessionStorageRef
  end.

(** Reading the [window] property of a persistent backend kind throws in
    world [w]. *)
Definition storage_blocked (st : StoreType) (w : World) : bool :=
  match st with
  | memory => false
  | localStorage => localStorage_blocked w
  | sessionStorage => sessionStorage_blocked w
  end.

(** The property of [window] that holds the storage object [s] gives it. *)
Definition readable (s : StorageRef) (w : World) : bool :=
  match s with
  | MapRef _ => true
  | LocalStorageRef => negb (localStorage_blocked w)
  | SessionStorageRef => negb (sessionStorage_blocked w)
  end.

(** The write of [#canUseWebStorage] throws in world [w]: the storage object
    was handed out, and its [setItem] throws. *)
Definition probe_write_throws (s : StorageRef) (w : World) : Prop :=
  readable s w = true
  /\ exists e w', setItem s (str "__ws_test__") (str "1") w = (Throw e, w').

(** What the string reader does with one more character in front. *)
Definition cons_char (c : N) (r : option (jsstring * jsstring)) : option (jsstring * jsstring) :=
  match r with
  | Some (x, t) => Some (c :: x, t)
  | None => None
  end.

(** What may follow a number token without being taken for part of it. *)
Definition ends_number (rest : jsstring) : bool :=
  match rest with
  | [] => true
  | c :: _ => negb (is_digit c || (c =? 46) || (c =? 101) || (c =? 69))
  end.

Fixpoint all_of {A} (P : A -> Prop) (l : list A) : Prop :=
  match l with
  | [] => True
  | x :: r => P x /\ all_of P r
  end.

Fixpoint sum_sizes {A} (f : A -> nat) (l : list A) : nat :=
  match l with
  | [] => O
  | x :: r => S (f x + sum_sizes f r)
  end.

Definition well_formed_string (s : jsstring) : Prop :=
  Forall (fun c => is_code_unit c = true) s.

(** The first character of a JSON text. *)
Definition value_start (c : N) : bool :=
  (c =? 34) || (c =? 45) || is_digit c || (c =? 91) || (c =? 102) || (c =? 110)
  || (c =? 116) || (c =? 123).

(** A decimal numeral without leading zero. *)
Definition leading_nonzero (d : Decimal.uint) : Prop :=
  match d with
  | Decimal.Nil | Decimal.D0 _ => False
  | _ => True
  end.

(** A result is found again with any fuel that covers the text it used. *)
Definition fuel_covers {A} (parse : nat -> jsstring -> option (A * jsstring))
    (s : jsstring) (a : A) (t : jsstring) : Prop :=
  (length t < length s)%nat
  /\ forall g, (length s - length t <= g)%nat -> parse g s = Some (a, t).

Section Serializable.
Context {number : Type} `{JSNumber number}.

(** A finite number that prints as a JSON number token and reads back as
    itself: what ECMA-262 promises of every finite number except -0. *)
Definition Number_roundtrips (n : number) : Prop :=
  Number_isFinite n = true
  /\ scan_number (Number_toString n) = Some (Number_toString n, [])
  /\ StringToNumber (Number_toString n) = n.

(** JSON-serializable values: numbers as above, strings of code units,
    objects without repeated keys. *)
Fixpoint serializable (v : json number) : Prop :=
  match v with
  | JNull => True
  | JBool _ => True
  | JNum n => Number_roundtrips n
  | JStr s => well_formed_string s
  | JArr l => all_of serializable l
  | JObj m =>
      NoDup (map fst m)
      /\ all_of (fun kv => well_formed_string (fst kv) /\ serializable (snd kv)) m
  end.

(** The nesting [parse_value] goes through to read a value back. *)
Fixpoint json_size (v : json number) : nat :=
  match v with
  | JArr l => S (sum_sizes json_size l)
  | JObj m => S (sum_sizes (fun kv => json_size (snd kv)) m)
  | _ => 1%nat
  end.

(** The text of one member of an object. *)
Definition member_text (kv : jsstring * json number) : jsstring :=
  QuoteJSONString (fst kv) ++ 58 :: JSON_stringify (snd kv).

(** [v] is read back from its text with enough fuel, whatever follows. *)
Definition reads_back (v : json number) : Prop :=
  forall fuel rest,
    (json_size v <= fuel)%nat -> ends_number rest = true ->
    parse_value fuel (JSON_stringify v ++ rest) = Some (v, rest).

(** A text that reads as one JSON value followed by nothing but white
    space, whatever fuel that takes. *)
Definition valid_JSON (text : jsstring) : Prop :=
  exists f (v : json number) t, parse_value f text = Some (v, t) /\ skip_ws t = [].

(** A call of one of the three public methods, and the world a sequence of
    calls on one instance leaves; an exception thrown by a call is the
    caller's to handle and does not stop the sequence. *)
Inductive call : Type :=
| SetValue (key : jsstring) (value : json number)
| GetValue (key : jsstring)
| RemoveValue (key : jsstring).

Definition perform (this : StoreProvider) (w : World) (c : call) : World :=
  match c with
  | SetValue key value => snd (setValue this key value w)
  | GetValue key => snd (getValue (number := number) this key w)
  | RemoveValue key => snd (removeValue this key w)
  end.

Definition perform_all (this : StoreProvider) (cs : list call) (w : World) : World :=
  fold_left (perform this) cs w.

(** Whether [key] is known to have no entry after the calls [cs], given
    whether it had none before: a [SetValue] of the key ends that, a
    [RemoveValue] of the key establishes it. *)
Fixpoint absent_after (key : jsstring) (cs : list call) (absent : bool) : bool :=
  match cs with
  | [] => absent
  | SetValue k _ :: r => absent_after key r (if decide (k = key) then false else absent)
  | RemoveValue k :: r => absent_after key r (if decide (k = key) then true else absent)
  | GetValue _ :: r => absent_after key r absent
  end.

End Serializable.

Arguments call : clear implicits.

(** ** Vocabulary of the further properties *)

(** The throwaway key of [#canUseWebStorage]. *)
Definition probe_key : jsstring := str "__ws_test__".

(** The Web Storage object behind a reference; a Map is none. *)
Definition storage_of (c : StorageRef) (w : World) : option Storage :=
  match c with
  | MapRef _ => None
  | LocalStorageRef => Some (window_localStorage w)
  | SessionStorageRef => Some (window_sessionStorage w)
  end.

(** Whether the object behind a reference refuses to store [raw] under
    [key] in world [w]; a Map refuses nothing. *)
Definition refuses (c : StorageRef) (w : World) (key raw : jsstring) : bool :=
  match storage_of c w with
  | Some s => denies s (items s) key raw
  | None => false
  end.

(** Whether the probe write on the backend a kind stands for is refused. *)
Definition probe_refused (st : StoreType) (w : World) : bool :=
  match persistent_backend st with
  | Some s => refuses s w probe_key (str "1")
  | None => false
  end.

(** The backend kind construction ends on: the requested one when there is
    a [window], the kind is persistent and the probe write goes through. *)
Definition selected_storeType (st : StoreType) (w : World) : StoreType :=
  if window w && negb (is_memory st) && negb (probe_refused st w) then st else memory.

(** The world after a probe that went through, and after [new Map()]. *)
Definition probed (s : StorageRef) (w : World) : World :=
  snd (removeItem s probe_key (snd (setItem s probe_key (str "1") w))).

Definition allocated (w : World) : World :=
  set_maps w (<[fresh (dom (maps w)) := ∅]> (maps w)).

(** Numbers with a value that is not finite: [None] is NaN, which
    Number::toString prints as "NaN". *)
Definition option_Z_JSNumber : JSNumber (option Z) := {|
  Number_isFinite := fun n => match n with Some _ => true | None => false end;
  Number_toString := fun n => match n with Some z => Z_toString z | None => str "NaN" end;
  StringToNumber := fun tok => Some (Z_of_token tok);
|}.

Section Calls.
Context {number : Type} `{JSNumber number}.

(** The key a call writes or removes, if it does. *)
Definition call_key (c : call number) : option jsstring :=
  match c with
  | SetValue key _ => Some key
  | RemoveValue key => Some key
  | GetValue _ => None
  end.

End Calls.

(** * Properties *)

(** ** Values *)

(** Induction over values that reaches inside arrays and objects. *)
Lemma json_nested_ind {number} (P : json number -> Prop) :
  P JNull ->
  (forall b, P (JBool b)) ->
  (forall n, P (JNum n)) ->
  (forall s, P (JStr s)) ->
  (forall l, Forall P l -> P (JArr l)) ->
  (forall m, Forall (fun kv => P (snd kv)) m -> P (JObj m)) ->
  forall v, P v.
Proof.
  intros Hnull Hbool Hnum Hstr Harr Hobj.
  fix IH 1. intros [ | b | n | s | l | m ].
  - exact Hnull.
  - apply Hbool.
  - apply Hnum.
  - apply Hstr.
  - apply Harr. induction l as [ | x l IHl ]; constructor; [ apply IH | exact IHl ].
  - apply Hobj. induction m as [ | [k x] m IHm ]; constructor; [ apply IH | exact IHm ].
Qed.

(** ** Strings *)

Lemma trim_start_whitespace (l s : jsstring) :
  all_whitespace l -> trim_start (l ++ s) = trim_start s.
Proof.
  induction 1 as [ | c l Hc _ IH ]; simpl; [ reflexivity | ].
  rewrite Hc. exact IH.
Qed.

Lemma trim_start_split (s : jsstring) :
  exists l, all_whitespace l /\ s = l ++ trim_start s.
Proof.
  induction s as [ | c s [l [Hl Hs]] ]; simpl.
  - exists []. split; [ constructor | reflexivity ].
  - destruct (is_js_whitespace c) eqn:Hc.
    + exists (c :: l). split; [ constructor; assumption | simpl; congruence ].
    + exists []. split; [ constructor | reflexivity ].
Qed.

Lemma trim_start_head (s : jsstring) (c : N) (r : jsstring) :
  trim_start s = c :: r -> is_js_whitespace c = false.
Proof.
  induction s as [ | d s IH ]; simpl; [ discriminate | ].
  destruct (is_js_whitespace d) eqn:Hd; [ exact IH | ].
  intros [= <- _]. exact Hd.
Qed.

Lemma trim_start_app (s r : jsstring) :
  trim_start s <> [] -> trim_start (s ++ r) = trim_start s ++ r.
Proof.
  induction s as [ | c s IH ]; simpl; [ congruence | ].
  destruct (is_js_whitespace c); [ exact IH | reflexivity ].
Qed.

Lemma all_whitespace_rev (l : jsstring) : all_whitespace l -> all_whitespace (rev l).
Proof. apply List.Forall_rev. Qed.

Lemma all_whitespace_trim_start (l : jsstring) : all_whitespace l -> trim_start l = [].
Proof. induction 1 as [ | c l Hc _ IH ]; simpl; [ | rewrite Hc ]; auto. Qed.

Lemma trim_end_whitespace (s r : jsstring) :
  all_whitespace r -> trim_end (s ++ r) = trim_end s.
Proof.
  intros Hr. unfold trim_end. rewrite rev_app_distr.
  rewrite trim_start_whitespace; [ reflexivity | apply all_whitespace_rev, Hr ].
Qed.

Lemma trim_end_split (s : jsstring) :
  exists r, all_whitespace r /\ s = trim_end s ++ r.
Proof.
  destruct (trim_start_split (rev s)) as [l [Hl Hs]].
  exists (rev l). split; [ apply all_whitespace_rev, Hl | ].
  unfold trim_end. rewrite <- rev_app_distr, <- Hs. symmetry. apply rev_involutive.
Qed.

(** Leading and trailing white space does not change the trimmed string. *)
Lemma trim_surrounding (l core r : jsstring) :
  all_whitespace l -> all_whitespace r -> trim (l ++ core ++ r) = trim core.
Proof.
  intros Hl Hr. unfold trim. rewrite (trim_start_whitespace l _ Hl).
  destruct (trim_start core) as [ | c t ] eqn:Hcore.
  - destruct (trim_start_split core) as [l' [Hl' Hc]]. rewrite Hcore, app_nil_r in Hc.
    subst l'. rewrite all_whitespace_trim_start; [ reflexivity | ].
    apply Forall_app; split; assumption.
  - rewrite trim_start_app by congruence. rewrite Hcore.
    apply trim_end_whitespace, Hr.
Qed.

(** What [trim] returns: the argument without a white-space prefix and a
    white-space suffix, neither starting nor ending with white space. *)
Lemma trim_spec (s : jsstring) :
  exists l r, all_whitespace l /\ all_whitespace r /\ s = l ++ trim s ++ r
    /\ (forall c t, trim s = c :: t -> is_js_whitespace c = false)
    /\ (forall c t, trim s = t ++ [c] -> is_js_whitespace c = false).
Proof.
  destruct (trim_start_split s) as [l [Hl Hs]].
  destruct (trim_end_split (trim_start s)) as [r [Hr Hsr]].
  exists l, r. unfold trim. repeat split; try assumption.
  - rewrite <- Hsr. exact Hs.
  - intros c t Ht. rewrite Ht in Hsr.
    apply (trim_start_head s c (t ++ r)). exact Hsr.
  - intros c t Ht. unfold trim_end in Ht.
    apply (f_equal (@rev N)) in Ht. rewrite rev_involutive, rev_app_distr in Ht.
    simpl in Ht. eapply trim_start_head. exact Ht.
Qed.

(** ** Construction *)

Ltac run_M :=
  unfold bind, ret, throw, try_catch, typeof_window_undefined,
    get_window_localStorage, get_window_sessionStorage, new_Map in *.

Lemma map_contents_set (w : World) (id : nat) (m : gmap jsstring jsstring) :
  map_contents (set_maps w (<[id := m]> (maps w))) id = m.
Proof. unfold map_contents. simpl. rewrite lookup_insert_eq. reflexivity. Qed.

Lemma canUseWebStorage_returns (s : StorageRef) (w : World) :
  exists b w', canUseWebStorage s w = (Ok b, w').
Proof.
  unfold canUseWebStorage. run_M.
  destruct s as [ id | | ]; simpl.
  - eauto.
  - destruct (Storage_put _ _ _); simpl; eauto.
  - destruct (Storage_put _ _ _); simpl; eauto.
Qed.

(** [#initStorage], with [#isServer] read from the world it runs in, throws
    when the read of the requested storage property does. *)
Lemma initStorage_blocked (st : StoreType) (w : World) :
  window w = true ->
  storage_blocked st w = true ->
  initStorage st (negb (window w)) w = (Throw SecurityError, w).
Proof.
  intros Hw Hb. unfold initStorage. rewrite Hw.
  destruct st; simpl in Hb |- *; [ discriminate | | ];
    unfold bind at 1;
    [ unfold get_window_localStorage | unfold get_window_sessionStorage ];
    rewrite Hw, Hb; reflexivity.
Qed.

(** Otherwise it returns, and leaves a backend of the kind it reports; a
    memory backend is a Map without entries. *)
Lemma initStorage_returns (st : StoreType) (w : World) :
  (window w = true -> storage_blocked st w = false) ->
  exists st' c w',
    initStorage st (negb (window w)) w = (Ok (st', c), w')
    /\ backend_consistent st' c
    /\ (st' = memory -> stored c w' = ∅).
Proof.
  intros Hread. unfold initStorage.
  destruct (window w) eqn:Hw; simpl.
  - specialize (Hread eq_refl). destruct st; simpl in Hread |- *.
    + run_M. simpl. eexists _, _, _. split; [ reflexivity | ].
      split; [ simpl; eauto | intros _; apply map_contents_set ].
    + unfold bind at 1, get_window_localStorage.
      rewrite Hw, Hread. unfold bind at 1.
      destruct (canUseWebStorage_returns LocalStorageRef w) as [b [w' Hb]].
      rewrite Hb. destruct b; simpl.
      * run_M. eexists _, _, _. split; [ reflexivity | ].
        split; [ reflexivity | discriminate ].
      * run_M. simpl. eexists _, _, _. split; [ reflexivity | ].
        split; [ simpl; eauto | intros _; apply map_contents_set ].
    + unfold bind at 1, get_window_sessionStorage.
      rewrite Hw, Hread. unfold bind at 1.
      destruct (canUseWebStorage_returns SessionStorageRef w) as [b [w' Hb]].
      rewrite Hb. destruct b; simpl.
      * run_M. eexists _, _, _. split; [ reflexivity | ].
        split; [ reflexivity | discriminate ].
      * run_M. simpl. eexists _, _, _. split; [ reflexivity | ].
        split; [ simpl; eauto | intros _; apply map_contents_set ].
  - assert (Hst : (if negb (is_memory st) then memory else st) = memory)
      by (destruct st; reflexivity).
    rewrite Hst. simpl. run_M. simpl.
    eexists _, _, _. split; [ reflexivity | ].
    split; [ simpl; eauto | intros _; apply map_contents_set ].
Qed.

(** What a successful construction fixes. *)
Lemma constructed_inv (o : Options.t) (w w' : World) (this : StoreProvider) :
  new_StoreProvider o w = (Ok this, w') ->
  exists p,
    default_value (Options.prefix o) (str "test-app") = StringValue p
    /\ prefix this = trim p
    /\ isServer this = negb (window w)
    /\ store this = adaptStorage (storeType this) (currentStorage this)
    /\ backend_consistent (storeType this) (currentStorage this)
    /\ (storeType this = memory -> backing_store this w' = ∅).
Proof.
  unfold new_StoreProvider.
  destruct (supported_storeType _) as [ st | ]; [ | discriminate ].
  destruct (default_value (Options.prefix o) _) as [ | p | ]; try discriminate.
  unfold bind at 1. unfold typeof_window_undefined. unfold bind at 1.
  destruct (window w && storage_blocked st w) eqn:Hblocked.
  - apply andb_true_iff in Hblocked as [Hw Hb].
    rewrite (initStorage_blocked st w Hw Hb). discriminate.
  - destruct (initStorage_returns st w) as [st' [c [w1 [Hinit [Hc Hempty]]]]].
    { intros Hw. rewrite Hw in Hblocked. exact Hblocked. }
    rewrite Hinit. unfold ret. intros [= <- <-]. simpl.
    exists p. repeat split; assumption.
Qed.

(** Valid options construct where the requested storage property can be
    read, and throw the property's SecurityError where it cannot. *)
Lemma constructor_returns (o : Options.t) (w : World) (st : StoreType) (p : jsstring) :
  supported_storeType (default_value (Options.storeType o) (str "localStorage")) = Some st ->
  default_value (Options.prefix o) (str "test-app") = StringValue p ->
  (window w = true -> storage_blocked st w = false) ->
  exists this w', new_StoreProvider o w = (Ok this, w').
Proof.
  intros Hst Hp Hread. unfold new_StoreProvider. rewrite Hst, Hp.
  unfold bind at 1. unfold typeof_window_undefined. unfold bind at 1.
  destruct (initStorage_returns st w Hread) as [st' [c [w1 [Hinit _]]]].
  rewrite Hinit. unfold ret. eauto.
Qed.

Lemma constructor_blocked (o : Options.t) (w : World) (st : StoreType) (p : jsstring) :
  supported_storeType (default_value (Options.storeType o) (str "localStorage")) = Some st ->
  default_value (Options.prefix o) (str "test-app") = StringValue p ->
  window w = true ->
  storage_blocked st w = true ->
  new_StoreProvider o w = (Throw SecurityError, w).
Proof.
  intros Hst Hp Hw Hb. unfold new_StoreProvider. rewrite Hst, Hp.
  unfold bind at 1. unfold typeof_window_undefined. unfold bind at 1.
  rewrite (initStorage_blocked st w Hw Hb). reflexivity.
Qed.

(** ** The adapter *)

Lemma constructed_adapter_ok (o : Options.t) (w w' : World) (this : StoreProvider) :
  new_StoreProvider o w = (Ok this, w') -> adapter_ok this.
Proof.
  intros Hnew. destruct (constructed_inv _ _ _ _ Hnew) as [p Hp].
  split; apply Hp.
Qed.

Ltac adapter_cases this :=
  let Hstore := fresh "Hstore" in
  let Hc := fresh "Hc" in
  let id := fresh "id" in
  let st := fresh "st" in
  let c := fresh "c" in
  match goal with
  | H : adapter_ok this |- _ =>
      destruct H as [Hstore Hc];
      unfold backing_store, stored; rewrite ?Hstore;
      destruct (storeType this) eqn:st; simpl in Hc;
      [ destruct Hc as [id Hc] | | ];
      rewrite ?Hc; simpl
  end.

(** A write that throws leaves the world as it was. *)
Lemma setItem_throws_unchanged (s : StorageRef) (key value : jsstring)
    (w w' : World) (e : exception) :
  setItem s key value w = (Throw e, w') -> w' = w.
Proof.
  destruct s as [ id | | ]; simpl.
  - unfold throw. congruence.
  - destruct (Storage_put _ _ _); congruence.
  - destruct (Storage_put _ _ _); congruence.
Qed.

Lemma getRaw_spec (this : StoreProvider) (key : jsstring) (w : World) :
  adapter_ok this ->
  getRaw (store this) key w = (Ok (backing_store this w !! key), w).
Proof. intros Hok. adapter_cases this; reflexivity. Qed.

(** A write either throws, leaving the world as it was, or stores the raw
    string under the key; the in-memory Map never refuses. *)
Lemma setRaw_spec (this : StoreProvider) (key raw : jsstring) (w : World) :
  adapter_ok this ->
  (storeType this <> memory /\ setRaw (store this) key raw w = (Throw DOMException, w))
  \/ exists w', setRaw (store this) key raw w = (Ok tt, w')
       /\ backing_store this w' = <[key := raw]> (backing_store this w).
Proof.
  intros Hok. adapter_cases this.
  - right. eexists. split; [ reflexivity | ]. apply map_contents_set.
  - unfold Storage_put. destruct (denies _ _ _ _).
    + left. split; [ discriminate | reflexivity ].
    + right. eexists. split; reflexivity.
  - unfold Storage_put. destruct (denies _ _ _ _).
    + left. split; [ discriminate | reflexivity ].
    + right. eexists. split; reflexivity.
Qed.

Lemma remove_spec (this : StoreProvider) (key : jsstring) (w : World) :
  adapter_ok this ->
  exists w', remove (store this) key w = (Ok tt, w')
    /\ backing_store this w' = delete key (backing_store this w).
Proof.
  intros Hok. adapter_cases this.
  - eexists. split; [ reflexivity | ]. apply map_contents_set.
  - eexists. split; reflexivity.
  - eexists. split; reflexivity.
Qed.

(** ** Keys *)

Lemma getKey_nonempty (this : StoreProvider) (key : jsstring) :
  key <> [] -> prefix this <> [] ->
  getKey this (Some key) = prefix this ++ str ":" ++ key.
Proof.
  intros Hk Hp. unfold getKey.
  destruct key; [ congruence | ]. destruct (prefix this); [ congruence | reflexivity ].
Qed.

Lemma getKey_empty_prefix (this : StoreProvider) (key : jsstring) :
  prefix this = [] -> getKey this (Some key) = key.
Proof.
  intros Hp. unfold getKey. rewrite Hp. destruct key; reflexivity.
Qed.

Lemma getKey_empty_key (this : StoreProvider) : getKey this (Some []) = prefix this.
Proof. reflexivity. Qed.

Lemma app_colon_neq (p k : jsstring) : p ++ str ":" ++ k <> k.
Proof.
  intros Heq. apply (f_equal (@length N)) in Heq.
  rewrite !length_app in Heq. simpl in Heq. lia.
Qed.

Lemma app_colon_neq_prefix (p k : jsstring) : p ++ str ":" ++ k <> p.
Proof.
  intros Heq. apply (f_equal (@length N)) in Heq.
  rewrite !length_app in Heq. simpl in Heq. lia.
Qed.

(** One provider never derives the same storage key from two keys. *)
Lemma getKey_inj (this : StoreProvider) (k1 k2 : jsstring) :
  getKey this (Some k1) = getKey this (Some k2) -> k1 = k2.
Proof.
  destruct (prefix this) as [ | c p ] eqn:Hp.
  - rewrite !getKey_empty_prefix by assumption. auto.
  - assert (Hne : prefix this <> []) by congruence.
    destruct k1 as [ | a k1 ], k2 as [ | b k2 ]; [ reflexivity | | | ].
    + rewrite getKey_empty_key, getKey_nonempty by (congruence || assumption).
      intros Heq. symmetry in Heq. exfalso. exact (app_colon_neq_prefix _ _ Heq).
    + rewrite getKey_empty_key, getKey_nonempty by (congruence || assumption).
      intros Heq. exfalso. exact (app_colon_neq_prefix _ _ Heq).
    + rewrite !getKey_nonempty by (congruence || assumption).
      intros Heq. apply app_inv_head in Heq. simpl in Heq. congruence.
Qed.

(** Two providers whose stored prefixes differ never derive the same storage
    key from one key. *)
Lemma getKey_prefix_apart (a b : StoreProvider) (key : jsstring) :
  prefix a <> prefix b -> getKey a (Some key) <> getKey b (Some key).
Proof.
  intros Hab.
  destruct key as [ | c key ]; [ rewrite !getKey_empty_key; exact Hab | ].
  destruct (prefix a) as [ | x pa ] eqn:Ha, (prefix b) as [ | y pb ] eqn:Hb.
  - congruence.
  - rewrite (getKey_empty_prefix a) by assumption.
    rewrite (getKey_nonempty b) by congruence.
    intros Heq. symmetry in Heq. exact (app_colon_neq _ _ Heq).
  - rewrite (getKey_empty_prefix b) by assumption.
    rewrite (getKey_nonempty a) by congruence.
    apply app_colon_neq.
  - rewrite (getKey_nonempty a), (getKey_nonempty b) by congruence.
    rewrite Ha, Hb. intros Heq.
    apply (app_inv_tail (str ":" ++ c :: key)) in Heq. congruence.
Qed.

(** ** The public operations *)

Section Operations.
Context {number : Type} `{JSNumber number}.

Lemma getValue_spec (this : StoreProvider) (key : jsstring) (w : World) :
  adapter_ok this ->
  getValue this key w
  = (Ok (deserialize (backing_store this w !! getKey this (Some key))), w).
Proof.
  intros Hok. unfold getValue, bind. rewrite getRaw_spec by assumption. reflexivity.
Qed.

Lemma setValue_spec (this : StoreProvider) (key : jsstring) (value : json number) (w : World) :
  adapter_ok this ->
  (storeType this <> memory /\ setValue this key value w = (Throw DOMException, w))
  \/ exists w', setValue this key value w = (Ok tt, w')
       /\ backing_store this w'
          = <[getKey this (Some key) := serialize value]> (backing_store this w).
Proof. intros Hok. unfold setValue. apply setRaw_spec, Hok. Qed.

Lemma removeValue_spec (this : StoreProvider) (key : jsstring) (w : World) :
  adapter_ok this ->
  exists w', removeValue this key w = (Ok tt, w')
    /\ backing_store this w' = delete (getKey this (Some key)) (backing_store this w).
Proof. intros Hok. unfold removeValue. apply remove_spec, Hok. Qed.

(** A successful write is what the next read of the same key decodes. *)
Lemma setValue_getValue (this : StoreProvider) (key : jsstring) (value : json number)
    (w w' : World) :
  adapter_ok this ->
  setValue this key value w = (Ok tt, w') ->
  getValue this key w' = (Ok (deserialize (Some (serialize value))), w').
Proof.
  intros Hok Hset. rewrite getValue_spec by assumption.
  destruct (setValue_spec this key value w Hok) as [ [_ Hthrow] | [w2 [Hw2 Hstore]] ].
  - congruence.
  - rewrite Hw2 in Hset. injection Hset as <-.
    rewrite Hstore, lookup_insert_eq. reflexivity.
Qed.

Lemma JSON_parse_null : JSON_parse (str "null") = Some (@JNull number).
Proof. reflexivity. Qed.

End Operations.

(** ** JSON: strings *)

Lemma hex_value_digit (d : N) : d < 16 -> hex_value (hex_digit d) = Some d.
Proof.
  intros Hd. unfold hex_value, hex_digit, is_digit.
  destruct (d <? 10) eqn:E.
  - apply N.ltb_lt in E.
    replace ((48 <=? 48 + d) && (48 + d <=? 57)) with true.
    + f_equal. lia.
    + symmetry. apply andb_true_iff. split; apply N.leb_le; lia.
  - apply N.ltb_ge in E.
    replace ((48 <=? 87 + d) && (87 + d <=? 57)) with false.
    + replace ((97 <=? 87 + d) && (87 + d <=? 102)) with true.
      * f_equal. lia.
      * symmetry. apply andb_true_iff. split; apply N.leb_le; lia.
    + symmetry. apply andb_false_iff. right. apply N.leb_gt. lia.
Qed.

Lemma hex4_escape (c : N) :
  c < 65536 ->
  hex4 (hex_digit (c / 4096 mod 16)) (hex_digit (c / 256 mod 16))
       (hex_digit (c / 16 mod 16)) (hex_digit (c mod 16)) = Some c.
Proof.
  intros Hc. unfold hex4.
  rewrite !hex_value_digit by (apply N.mod_lt; discriminate).
  f_equal.
  replace (c / 4096) with (c / 16 / 16 / 16) by (rewrite !N.Div0.div_div; reflexivity).
  replace (c / 256) with (c / 16 / 16) by (rewrite !N.Div0.div_div; reflexivity).
  pose proof (N.div_mod' c 16) as H0. pose proof (N.mod_lt c 16) as L0.
  pose proof (N.div_mod' (c / 16) 16) as H1. pose proof (N.mod_lt (c / 16) 16) as L1.
  pose proof (N.div_mod' (c / 16 / 16) 16) as H2. pose proof (N.mod_lt (c / 16 / 16) 16) as L2.
  pose proof (N.div_mod' (c / 16 / 16 / 16) 16) as H3.
  pose proof (N.mod_lt (c / 16 / 16 / 16) 16) as L3.
  generalize dependent (c / 16 / 16 / 16 / 16). generalize dependent (c / 16 / 16 / 16 mod 16).
  generalize dependent (c / 16 / 16 / 16). generalize dependent (c / 16 / 16 mod 16).
  generalize dependent (c / 16 / 16). generalize dependent (c / 16 mod 16).
  generalize dependent (c / 16). generalize dependent (c mod 16).
  intros. lia.
Qed.

Lemma parse_string_chars_plain (c : N) (t : jsstring) :
  c <> 34 -> c <> 92 -> 32 <= c ->
  parse_string_chars (c :: t) = cons_char c (parse_string_chars t).
Proof.
  intros H34 H92 H32. simpl.
  apply N.eqb_neq in H34, H92. rewrite H34, H92.
  replace (c <? 32) with false by (symmetry; apply N.ltb_ge; exact H32).
  reflexivity.
Qed.

Lemma parse_string_chars_unicode (a b c d : N) (t : jsstring) :
  parse_string_chars (92 :: 117 :: a :: b :: c :: d :: t)
  = match hex4 a b c d with
    | Some u => cons_char u (parse_string_chars t)
    | None => None
    end.
Proof. reflexivity. Qed.

Lemma parse_quote_code_unit (c : N) (t : jsstring) :
  c < 65536 ->
  parse_string_chars (quote_code_unit c ++ t) = cons_char c (parse_string_chars t).
Proof.
  intros Hc. unfold quote_code_unit.
  repeat match goal with
  | |- context [ if ?x =? ?k then _ else _ ] =>
      destruct (N.eqb_spec x k); [ subst; reflexivity | ]
  end.
  destruct ((c <? 32) || is_leading_surrogate c || is_trailing_surrogate c) eqn:E.
  - unfold UnicodeEscape. simpl app.
    rewrite parse_string_chars_unicode, hex4_escape by assumption. reflexivity.
  - apply orb_false_iff in E. destruct E as [E _]. apply orb_false_iff in E.
    destruct E as [E _]. apply N.ltb_ge in E.
    simpl app. apply parse_string_chars_plain; assumption.
Qed.

Lemma quote_chars_cons (c d : N) (r : jsstring) :
  quote_chars (c :: d :: r)
  = if is_leading_surrogate c && is_trailing_surrogate d
    then c :: d :: quote_chars r
    else quote_code_unit c ++ quote_chars (d :: r).
Proof. reflexivity. Qed.

Lemma parse_quote_chars (s rest : jsstring) :
  Forall (fun c => is_code_unit c = true) s ->
  parse_string_chars (quote_chars s ++ 34 :: rest) = Some (s, rest).
Proof.
  remember (length s) as n eqn:Hn. revert s Hn.
  induction n as [n IH] using lt_wf_ind. intros s Hn Hs.
  destruct s as [ | c [ | d r ] ].
  - reflexivity.
  - simpl quote_chars. inversion Hs as [ | ? ? Hc _ ]; subst.
    rewrite parse_quote_code_unit by (apply N.ltb_lt; exact Hc). reflexivity.
  - inversion Hs as [ | ? ? Hc Hs' ]; subst. inversion Hs' as [ | ? ? Hd Hr ]; subst.
    rewrite quote_chars_cons.
    destruct (is_leading_surrogate c && is_trailing_surrogate d) eqn:E.
    + apply andb_true_iff in E. destruct E as [Ec Ed].
      unfold is_leading_surrogate in Ec. unfold is_trailing_surrogate in Ed.
      apply andb_true_iff in Ec, Ed. destruct Ec as [Ec _], Ed as [Ed _].
      apply N.leb_le in Ec, Ed.
      simpl app. rewrite !parse_string_chars_plain by lia.
      rewrite (IH (length r)); [ reflexivity | simpl; lia | reflexivity | exact Hr ].
    + rewrite <- app_assoc. rewrite parse_quote_code_unit by (apply N.ltb_lt; exact Hc).
      rewrite (IH (length (d :: r))); [ reflexivity | simpl; lia | reflexivity | exact Hs' ].
Qed.

(** ** JSON: number tokens *)

Lemma ends_number_inv (c : N) (rest : jsstring) :
  ends_number (c :: rest) = true ->
  is_digit c = false /\ (c =? 46) = false /\ ((c =? 101) || (c =? 69)) = false.
Proof.
  simpl. intros Hc. apply negb_true_iff in Hc.
  destruct (is_digit c), (c =? 46), (c =? 101), (c =? 69); simpl in *; auto; discriminate.
Qed.

Lemma span_digits_app (s rest : jsstring) :
  ends_number rest = true ->
  span_digits (s ++ rest) = (fst (span_digits s), snd (span_digits s) ++ rest).
Proof.
  intros Hrest. induction s as [ | c s IH ].
  - destruct rest as [ | c rest ]; [ reflexivity | ].
    apply ends_number_inv in Hrest. destruct Hrest as [Hd _].
    simpl. rewrite Hd. reflexivity.
  - simpl. destruct (is_digit c); [ | reflexivity ].
    rewrite IH. destruct (span_digits s). reflexivity.
Qed.

Lemma scan_int_app (s rest i t : jsstring) :
  ends_number rest = true ->
  scan_int s = Some (i, t) -> scan_int (s ++ rest) = Some (i, t ++ rest).
Proof.
  intros Hrest. destruct s as [ | c s ]; [ discriminate | ]. simpl.
  destruct (c =? 48); [ intros [= <- <-]; reflexivity | ].
  destruct (is_digit c); [ | discriminate ].
  rewrite span_digits_app by assumption.
  destruct (span_digits s). intros [= <- <-]. reflexivity.
Qed.

Lemma scan_frac_app (s rest f t : jsstring) :
  ends_number rest = true ->
  scan_frac s = Some (f, t) -> scan_frac (s ++ rest) = Some (f, t ++ rest).
Proof.
  intros Hrest. destruct s as [ | c s ].
  - intros [= <- <-]. destruct rest as [ | c rest ]; [ reflexivity | ].
    apply ends_number_inv in Hrest. destruct Hrest as [_ [Hdot _]].
    simpl. rewrite Hdot. reflexivity.
  - simpl. destruct (c =? 46); [ | intros [= <- <-]; reflexivity ].
    rewrite span_digits_app by assumption.
    destruct (span_digits s) as [ [ | d ds ] u ]; [ discriminate | ].
    intros [= <- <-]. reflexivity.
Qed.

Lemma scan_exp_app (s rest e t : jsstring) :
  ends_number rest = true ->
  scan_exp s = Some (e, t) -> scan_exp (s ++ rest) = Some (e, t ++ rest).
Proof.
  intros Hrest. destruct s as [ | c s ].
  - intros [= <- <-]. destruct rest as [ | c rest ]; [ reflexivity | ].
    apply ends_number_inv in Hrest. destruct Hrest as [_ [_ He]].
    simpl. rewrite He. reflexivity.
  - simpl. destruct ((c =? 101) || (c =? 69)); [ | intros [= <- <-]; reflexivity ].
    destruct s as [ | x s ]; [ discriminate | ].
    simpl. destruct ((x =? 43) || (x =? 45)).
    + rewrite span_digits_app by assumption.
      destruct (span_digits s) as [ [ | d ds ] u ]; [ discriminate | ].
      intros [= <- <-]. reflexivity.
    + change (x :: s ++ rest) with ((x :: s) ++ rest).
      rewrite span_digits_app by assumption.
      destruct (span_digits (x :: s)) as [ [ | d ds ] u ]; [ discriminate | ].
      intros [= <- <-]. reflexivity.
Qed.

(** Appending text that cannot continue a number leaves the token found. *)
Lemma scan_number_app (s rest tok t : jsstring) :
  ends_number rest = true ->
  scan_number s = Some (tok, t) -> scan_number (s ++ rest) = Some (tok, t ++ rest).
Proof.
  intros Hrest. unfold scan_number.
  destruct s as [ | c s ]; [ discriminate | ].
  assert (Hsign : scan_sign ((c :: s) ++ rest)
                  = (fst (scan_sign (c :: s)), snd (scan_sign (c :: s)) ++ rest)).
  { simpl. destruct (c =? 45); reflexivity. }
  rewrite Hsign. destruct (scan_sign (c :: s)) as [sg s1]. simpl fst. simpl snd.
  destruct (scan_int s1) as [ [i s2] | ] eqn:Hi; [ | discriminate ].
  rewrite (scan_int_app _ _ _ _ Hrest Hi).
  destruct (scan_frac s2) as [ [f s3] | ] eqn:Hf; [ | discriminate ].
  rewrite (scan_frac_app _ _ _ _ Hrest Hf).
  destruct (scan_exp s3) as [ [e s4] | ] eqn:He; [ | discriminate ].
  rewrite (scan_exp_app _ _ _ _ Hrest He).
  intros [= <- <-]. reflexivity.
Qed.

(** A number token starts with a minus sign or a digit. *)
Lemma scan_number_head (s tok t : jsstring) :
  scan_number s = Some (tok, t) ->
  exists c r, s = c :: r /\ ((c =? 45) || is_digit c) = true.
Proof.
  unfold scan_number. destruct s as [ | c s ]; [ discriminate | ].
  intros Hscan. exists c, s. split; [ reflexivity | ].
  simpl in Hscan. destruct (c =? 45) eqn:Hc; [ reflexivity | ].
  simpl in Hscan. destruct (c =? 48) eqn:H0.
  - apply N.eqb_eq in H0. subst c. reflexivity.
  - destruct (is_digit c); [ reflexivity | discriminate ].
Qed.

(** ** JSON: values *)

Lemma value_start_not_ws (c : N) : value_start c = true -> is_json_ws c = false.
Proof.
  intros Hc. destruct (is_json_ws c) eqn:Hws; [ | reflexivity ].
  unfold is_json_ws in Hws.
  repeat (apply orb_true_iff in Hws; destruct Hws as [Hws | Hws]);
    apply N.eqb_eq in Hws; subst c; discriminate.
Qed.

Lemma value_start_neq (c k : N) : value_start k = false -> value_start c = true -> (c =? k) = false.
Proof. intros Hk Hc. destruct (N.eqb_spec c k); [ congruence | reflexivity ]. Qed.

Lemma object_put_fresh {A} (o : list (jsstring * A)) (k : jsstring) (v : A) :
  k ∉ map fst o -> object_put o k v = o ++ [(k, v)].
Proof.
  induction o as [ | [k' v'] o IH ]; simpl; intros Hk; [ reflexivity | ].
  destruct (decide (k' = k)) as [ -> | Hne ].
  - exfalso. apply Hk. left.
  - rewrite IH; [ reflexivity | ]. intros Hin. apply Hk. right. exact Hin.
Qed.

Lemma fold_object_put {A} (m acc : list (jsstring * A)) :
  NoDup (map fst (acc ++ m)) ->
  fold_left (fun o kv => object_put o (fst kv) (snd kv)) m acc = acc ++ m.
Proof.
  revert acc. induction m as [ | [k v] m IH ]; intros acc Hnd; simpl.
  - symmetry. apply app_nil_r.
  - rewrite object_put_fresh.
    + rewrite IH; rewrite <- app_assoc; [ reflexivity | exact Hnd ].
    + rewrite map_app in Hnd. simpl in Hnd.
      apply NoDup_app in Hnd. destruct Hnd as [_ [Hdisj _]].
      intros Hin. apply (Hdisj k Hin). left.
Qed.

(** Without repeated keys the object built is the member list itself. *)
Lemma object_of_members_NoDup {A} (m : list (jsstring * A)) :
  NoDup (map fst m) -> object_of_members m = m.
Proof. intros Hnd. unfold object_of_members. rewrite fold_object_put; auto. Qed.

Section Roundtrip.
Context {number : Type} `{JSNumber number}.

Lemma parse_value_string (f : nat) (r : jsstring) :
  parse_value (S f) (34 :: r)
  = match parse_string_chars r with
    | Some (x, t) => Some (@JStr number x, t)
    | None => None
    end.
Proof. reflexivity. Qed.

Lemma parse_value_array (f : nat) (r : jsstring) :
  parse_value (S f) (91 :: r)
  = match skip_ws r with
    | [] => None
    | d :: t =>
        if d =? 93 then Some (JArr [], t)
        else match parse_elements f r with
             | Some (l, u) => Some (JArr l, u)
             | None => None
             end
    end.
Proof. reflexivity. Qed.

Lemma parse_value_object (f : nat) (r : jsstring) :
  parse_value (S f) (123 :: r)
  = match skip_ws r with
    | [] => None
    | d :: t =>
        if d =? 125 then Some (JObj [], t)
        else match parse_members f r with
             | Some (m, u) => Some (JObj (object_of_members m), u)
             | None => None
             end
    end.
Proof. reflexivity. Qed.

Lemma parse_elements_step (f : nat) (s : jsstring) :
  parse_elements (S f) s
  = match parse_value f s with
    | None => None
    | Some (v, t) =>
        match skip_ws t with
        | [] => None
        | c :: u =>
            if c =? 44 then
              match parse_elements f u with
              | Some (l, w) => Some (v :: l, w)
              | None => None
              end
            else if c =? 93 then Some ([v], u)
            else None
        end
    end.
Proof. reflexivity. Qed.

Lemma parse_members_step (f : nat) (r : jsstring) :
  parse_members (S f) (34 :: r)
  = match parse_string_chars r with
    | None => None
    | Some (k, t) =>
        match skip_ws t with
        | [] => None
        | c :: u =>
            if c =? 58 then
              match parse_value f u with
              | None => None
              | Some (v, w) =>
                  match skip_ws w with
                  | [] => None
                  | e :: x =>
                      if e =? 44 then
                        match parse_members f x with
                        | Some (m, y) => Some ((k, v) :: m, y)
                        | None => None
                        end
                      else if e =? 125 then Some ([(k, v)], x)
                      else None
                  end
              end
            else None
        end
    end.
Proof. reflexivity. Qed.

Lemma parse_value_atom (f : nat) (c : N) (r : jsstring) :
  is_json_ws c = false ->
  (c =? 34) = false -> (c =? 91) = false -> (c =? 123) = false ->
  parse_value (S f) (c :: r) = parse_atom (c :: r).
Proof.
  intros Hws H34 H91 H123. cbn [parse_value skip_ws].
  rewrite Hws, H34, H91, H123. reflexivity.
Qed.

Lemma strip_prefix_head (a c : N) (p r : jsstring) :
  (a =? c) = false -> strip_prefix (a :: p) (c :: r) = None.
Proof. intros Hac. cbn [strip_prefix]. rewrite Hac. reflexivity. Qed.

Lemma parse_value_number (f : nat) (c : N) (r : jsstring) :
  ((c =? 45) || is_digit c) = true ->
  parse_value (S f) (c :: r)
  = match scan_number (c :: r) with
    | Some (tok, t) => Some (JNum (StringToNumber tok), t)
    | None => None
    end.
Proof.
  intros Hc.
  assert (Hcases : c = 45 \/ (48 <= c /\ c <= 57)).
  { apply orb_true_iff in Hc. destruct Hc as [Hc | Hc].
    - left. apply N.eqb_eq, Hc.
    - right. unfold is_digit in Hc. apply andb_true_iff in Hc.
      destruct Hc as [H1 H2]. apply N.leb_le in H1, H2. split; assumption. }
  assert (Hne : forall k, k <> 45 -> (k < 48 \/ 57 < k) -> (c =? k) = false).
  { intros k H1 H2. apply N.eqb_neq. lia. }
  assert (Hne' : forall k, k <> 45 -> (k < 48 \/ 57 < k) -> (k =? c) = false).
  { intros k H1 H2. apply N.eqb_neq. lia. }
  rewrite parse_value_atom.
  - unfold parse_atom.
    change (str "true") with (116 :: str "rue").
    change (str "false") with (102 :: str "alse").
    change (str "null") with (110 :: str "ull").
    rewrite !strip_prefix_head by (apply Hne'; lia). reflexivity.
  - unfold is_json_ws. rewrite !Hne by lia. reflexivity.
  - apply Hne; lia.
  - apply Hne; lia.
  - apply Hne; lia.
Qed.

Lemma skip_ws_value_start (c : N) (t : jsstring) :
  value_start c = true -> skip_ws (c :: t) = c :: t.
Proof. intros Hc. cbn [skip_ws]. rewrite (value_start_not_ws c Hc). reflexivity. Qed.

Lemma JSON_stringify_array (l : list (json number)) :
  JSON_stringify (JArr l) = 91 :: join_comma (map JSON_stringify l) ++ [93].
Proof. reflexivity. Qed.

Lemma JSON_stringify_object (m : list (jsstring * json number)) :
  JSON_stringify (JObj m) = 123 :: join_comma (map member_text m) ++ [125].
Proof. reflexivity. Qed.

Lemma member_text_app (k : jsstring) (x : json number) (t : jsstring) :
  member_text (k, x) ++ t = 34 :: quote_chars k ++ 34 :: 58 :: JSON_stringify x ++ t.
Proof.
  unfold member_text, QuoteJSONString. simpl.
  rewrite <- !app_assoc. reflexivity.
Qed.

Lemma join_comma_cons (x : jsstring) (y : jsstring) (l : list jsstring) :
  join_comma (x :: y :: l) = x ++ 44 :: join_comma (y :: l).
Proof. reflexivity. Qed.

Lemma join_comma_head (c : N) (t : jsstring) (l : list jsstring) :
  exists t', join_comma ((c :: t) :: l) = c :: t'.
Proof. destruct l; simpl; eauto. Qed.

(** Every serialized value starts with a character that starts a value. *)
Lemma JSON_stringify_head (v : json number) :
  serializable v -> exists c t, JSON_stringify v = c :: t /\ value_start c = true.
Proof.
  destruct v as [ | [ | ] | n | s | l | m ]; intros Hv.
  - exists 110, (str "ull"). split; reflexivity.
  - exists 116, (str "rue"). split; reflexivity.
  - exists 102, (str "alse"). split; reflexivity.
  - destruct Hv as [Hfin [Htok _]]. cbn [JSON_stringify]. rewrite Hfin.
    destruct (scan_number_head _ _ _ Htok) as [c [r [Hr Hc]]].
    exists c, r. split; [ exact Hr | ].
    unfold value_start. apply orb_true_iff in Hc. destruct Hc as [-> | ->].
    + destruct (c =? 34); reflexivity.
    + destruct (c =? 34), (c =? 45); reflexivity.
  - eexists 34, _. split; reflexivity.
  - eexists 91, _. split; reflexivity.
  - eexists 123, _. split; reflexivity.
Qed.

Lemma elements_read_back (l : list (json number)) :
  l <> [] ->
  Forall reads_back l ->
  forall fuel rest,
    (sum_sizes json_size l <= fuel)%nat ->
    parse_elements fuel (join_comma (map JSON_stringify l) ++ 93 :: rest) = Some (l, rest).
Proof.
  intros Hne Hall. induction Hall as [ | x l Hx Hl IH ]; [ congruence | ].
  intros fuel rest Hfuel. cbn [sum_sizes] in Hfuel.
  destruct fuel as [ | f ]; [ lia | ].
  rewrite parse_elements_step.
  destruct l as [ | y l ].
  - cbn [map join_comma]. rewrite Hx by (reflexivity || lia). reflexivity.
  - cbn [map]. rewrite join_comma_cons, <- app_assoc. cbn [app].
    rewrite Hx by (reflexivity || lia).
    change (skip_ws (44 :: ?t)) with (44 :: t).
    change (44 =? 44) with true. cbn iota.
    cbn [map] in IH. rewrite IH; [ reflexivity | congruence | lia ].
Qed.

Lemma members_read_back (m : list (jsstring * json number)) :
  m <> [] ->
  Forall (fun kv => well_formed_string (fst kv) /\ reads_back (snd kv)) m ->
  forall fuel rest,
    (sum_sizes (fun kv => json_size (snd kv)) m <= fuel)%nat ->
    parse_members fuel (join_comma (map member_text m) ++ 125 :: rest) = Some (m, rest).
Proof.
  intros Hne Hall. induction Hall as [ | [k x] m [Hk Hx] Hm IH ]; [ congruence | ].
  intros fuel rest Hfuel. cbn [sum_sizes snd] in Hfuel. cbn [fst snd] in Hk, Hx.
  destruct fuel as [ | f ]; [ lia | ].
  destruct m as [ | kv m ].
  - cbn [map join_comma]. rewrite member_text_app, parse_members_step.
    rewrite parse_quote_chars by exact Hk.
    change (skip_ws (58 :: ?t)) with (58 :: t).
    change (58 =? 58) with true. cbn iota.
    rewrite Hx by (reflexivity || lia). reflexivity.
  - cbn [map]. rewrite join_comma_cons, <- app_assoc.
    rewrite member_text_app, parse_members_step.
    rewrite parse_quote_chars by exact Hk.
    change (skip_ws (58 :: ?t)) with (58 :: t).
    change (58 =? 58) with true. cbn iota. cbn [app].
    rewrite Hx by (reflexivity || lia).
    change (skip_ws (44 :: ?t)) with (44 :: t).
    change (44 =? 44) with true. cbn iota.
    cbn [map] in IH. rewrite IH; [ reflexivity | congruence | lia ].
Qed.

Lemma all_of_Forall {A} (P : A -> Prop) (l : list A) : all_of P l <-> Forall P l.
Proof.
  induction l as [ | x l IH ]; simpl.
  - split; constructor.
  - rewrite IH. split; [ intros [Hx Hl]; constructor; assumption | ].
    intros Hxl. inversion Hxl; subst. split; assumption.
Qed.

(** A serializable value is read back from what [JSON_stringify] writes. *)
Lemma parse_value_stringify (v : json number) : serializable v -> reads_back v.
Proof.
  induction v as [ | b | n | s | l IHl | m IHm ] using json_nested_ind;
    intros Hv fuel rest Hfuel Hrest; (destruct fuel as [ | f ]; [ simpl in Hfuel; lia | ]).
  - reflexivity.
  - destruct b; reflexivity.
  - destruct Hv as [Hfin [Htok Hnum]]. cbn [JSON_stringify]. rewrite Hfin.
    destruct (scan_number_head _ _ _ Htok) as [c [r [Hr Hc]]].
    pose proof (scan_number_app _ rest _ _ Hrest Htok) as Happ.
    rewrite Hr in *. cbn [app] in *.
    rewrite parse_value_number by exact Hc.
    rewrite Happ, Hnum. reflexivity.
  - cbn [JSON_stringify]. unfold QuoteJSONString.
    rewrite <- app_comm_cons, <- app_assoc. cbn [app].
    rewrite parse_value_string, parse_quote_chars by exact Hv. reflexivity.
  - rewrite JSON_stringify_array, <- app_comm_cons, <- app_assoc. cbn [app].
    rewrite parse_value_array.
    cbn [serializable] in Hv. apply all_of_Forall in Hv.
    destruct l as [ | x l ]; [ reflexivity | ].
    assert (Hreads : Forall reads_back (x :: l)).
    { apply Forall_forall. intros y Hy.
      rewrite Forall_forall in IHl, Hv. apply IHl; [ exact Hy | apply Hv, Hy ]. }
    cbn [json_size] in Hfuel.
    rewrite (elements_read_back (x :: l)) by (congruence || assumption || lia).
    inversion Hv as [ | ? ? Hx _ ]; subst.
    destruct (JSON_stringify_head x Hx) as [c [t [Hxt Hc]]].
    cbn [map]. rewrite Hxt.
    destruct (join_comma_head c t (map JSON_stringify l)) as [t' Ht']. rewrite Ht'.
    cbn [app]. rewrite skip_ws_value_start by exact Hc.
    rewrite (value_start_neq c 93) by (reflexivity || exact Hc). reflexivity.
  - rewrite JSON_stringify_object, <- app_comm_cons, <- app_assoc. cbn [app].
    rewrite parse_value_object.
    cbn [serializable] in Hv. destruct Hv as [Hnd Hv]. apply all_of_Forall in Hv.
    destruct m as [ | [k x] m ]; [ reflexivity | ].
    assert (Hreads : Forall (fun kv => well_formed_string (fst kv) /\ reads_back (snd kv))
                       ((k, x) :: m)).
    { apply Forall_forall. intros kv Hkv.
      rewrite Forall_forall in IHm, Hv. destruct (Hv kv Hkv) as [Hwf Hser].
      split; [ exact Hwf | apply IHm; assumption ]. }
    cbn [json_size] in Hfuel.
    rewrite (members_read_back ((k, x) :: m)) by (congruence || assumption || lia).
    rewrite object_of_members_NoDup by exact Hnd.
    cbn [map]. unfold member_text at 1. unfold QuoteJSONString. cbn [fst].
    rewrite <- app_comm_cons.
    destruct (join_comma_head 34 ((quote_chars k ++ [34]) ++ 58 :: JSON_stringify (snd (k, x)))
                (map member_text m)) as [t' Ht'].
    rewrite Ht'. cbn [app]. reflexivity.
Qed.

Lemma sum_sizes_join {A} (f : A -> nat) (g : A -> jsstring) (l : list A) :
  Forall (fun x => (f x <= length (g x))%nat) l ->
  (sum_sizes f l <= S (length (join_comma (map g l))))%nat.
Proof.
  induction 1 as [ | x l Hx Hl IH ]; [ simpl; lia | ].
  destruct l as [ | y l ].
  - simpl. lia.
  - cbn [map sum_sizes] in *. rewrite join_comma_cons, length_app. cbn [length]. lia.
Qed.

(** The text of a value is at least as long as the fuel reading it takes. *)
Lemma json_size_le_length (v : json number) :
  serializable v -> (json_size v <= length (JSON_stringify v))%nat.
Proof.
  induction v as [ | b | n | s | l IHl | m IHm ] using json_nested_ind; intros Hv.
  - simpl. lia.
  - destruct b; simpl; lia.
  - destruct (JSON_stringify_head (JNum n) Hv) as [c [t [Hct _]]].
    rewrite Hct. simpl. lia.
  - simpl. lia.
  - rewrite JSON_stringify_array. cbn [json_size length]. rewrite length_app. cbn [length].
    cbn [serializable] in Hv. apply all_of_Forall in Hv.
    pose proof (sum_sizes_join json_size JSON_stringify l) as Hsum.
    assert (Hall : Forall (fun x => (json_size x <= length (JSON_stringify x))%nat) l).
    { rewrite Forall_forall in *. auto. }
    specialize (Hsum Hall). lia.
  - rewrite JSON_stringify_object. cbn [json_size length]. rewrite length_app. cbn [length].
    cbn [serializable] in Hv. destruct Hv as [_ Hv]. apply all_of_Forall in Hv.
    pose proof (sum_sizes_join (fun kv => json_size (snd kv)) member_text m) as Hsum.
    assert (Hall : Forall (fun kv => (json_size (snd kv) <= length (member_text kv))%nat) m).
    { rewrite Forall_forall in *. intros kv Hkv.
      destruct (Hv kv Hkv) as [_ Hser]. specialize (IHm kv Hkv Hser).
      unfold member_text. rewrite length_app. cbn [length]. lia. }
    specialize (Hsum Hall). lia.
Qed.

(** [JSON.parse(JSON.stringify(v))] is [v]. *)
Lemma JSON_parse_stringify (v : json number) :
  serializable v -> JSON_parse (JSON_stringify v) = Some v.
Proof.
  intros Hv. unfold JSON_parse.
  pose proof (parse_value_stringify v Hv (S (length (JSON_stringify v))) []) as Hparse.
  rewrite app_nil_r in Hparse. rewrite Hparse; [ reflexivity | | reflexivity ].
  pose proof (json_size_le_length v Hv). lia.
Qed.

End Roundtrip.

(** ** JSON: the fuel of [JSON_parse] is enough *)

Lemma skip_ws_length (s : jsstring) : (length (skip_ws s) <= length s)%nat.
Proof.
  induction s as [ | c s IH ]; simpl; [ lia | ].
  destruct (is_json_ws c); simpl; lia.
Qed.

Lemma skip_ws_cons_length (s : jsstring) (c : N) (r : jsstring) :
  skip_ws s = c :: r -> (length r < length s)%nat.
Proof.
  intros Hs. pose proof (skip_ws_length s) as Hlen.
  rewrite Hs in Hlen. simpl in Hlen. lia.
Qed.

Lemma parse_string_chars_length (s x t : jsstring) :
  parse_string_chars s = Some (x, t) -> (length t < length s)%nat.
Proof.
  remember (length s) as n eqn:Hn. revert s x t Hn.
  induction n as [n IH] using lt_wf_ind. intros s x t Hn.
  destruct s as [ | c r ]; [ discriminate | ].
  cbn [parse_string_chars].
  destruct (c =? 34); [ intros [= <- <-]; simpl in Hn; lia | ].
  destruct (c =? 92).
  - destruct r as [ | e r1 ]; [ discriminate | ].
    destruct (e =? 117).
    + destruct r1 as [ | h1 [ | h2 [ | h3 [ | h4 r2 ] ] ] ]; try discriminate.
      destruct (hex4 h1 h2 h3 h4); [ | discriminate ].
      destruct (parse_string_chars r2) as [ [y u] | ] eqn:Hr2; [ | discriminate ].
      intros [= <- <-].
      pose proof (IH (length r2) ltac:(subst n; simpl; lia) r2 y u eq_refl Hr2).
      subst n. simpl. lia.
    + destruct (unescape e); [ | discriminate ].
      destruct (parse_string_chars r1) as [ [y u] | ] eqn:Hr1; [ | discriminate ].
      intros [= <- <-].
      pose proof (IH (length r1) ltac:(subst n; simpl; lia) r1 y u eq_refl Hr1).
      subst n. simpl. lia.
  - destruct (c <? 32); [ discriminate | ].
    destruct (parse_string_chars r) as [ [y u] | ] eqn:Hr; [ | discriminate ].
    intros [= <- <-].
    pose proof (IH (length r) ltac:(subst n; simpl; lia) r y u eq_refl Hr).
    subst n. simpl. lia.
Qed.

Lemma strip_prefix_length (p s t : jsstring) :
  strip_prefix p s = Some t -> length s = (length p + length t)%nat.
Proof.
  revert s. induction p as [ | a p IH ]; intros s; simpl.
  - intros [= <-]. reflexivity.
  - destruct s as [ | b s ]; [ discriminate | ].
    destruct (a =? b); [ | discriminate ].
    intros Hs. apply IH in Hs. cbn [length]. lia.
Qed.

Lemma span_digits_split (s : jsstring) :
  s = fst (span_digits s) ++ snd (span_digits s).
Proof.
  induction s as [ | c s IH ]; simpl; [ reflexivity | ].
  destruct (is_digit c); [ | reflexivity ].
  destruct (span_digits s). simpl in *. congruence.
Qed.

Lemma span_digits_length (s : jsstring) :
  (length (snd (span_digits s)) <= length s)%nat.
Proof.
  pose proof (span_digits_split s) as Hs. apply (f_equal (@length N)) in Hs.
  rewrite length_app in Hs. lia.
Qed.

Lemma scan_int_length (s i t : jsstring) :
  scan_int s = Some (i, t) -> (length t < length s)%nat.
Proof.
  destruct s as [ | c s ]; [ discriminate | ]. simpl.
  destruct (c =? 48); [ intros [= <- <-]; lia | ].
  destruct (is_digit c); [ | discriminate ].
  pose proof (span_digits_length s). destruct (span_digits s).
  intros [= <- <-]. simpl in *. lia.
Qed.

Lemma scan_frac_length (s f t : jsstring) :
  scan_frac s = Some (f, t) -> (length t <= length s)%nat.
Proof.
  destruct s as [ | c s ]; [ intros [= <- <-]; simpl; lia | ]. simpl.
  destruct (c =? 46); [ | intros [= <- <-]; simpl; lia ].
  pose proof (span_digits_length s). destruct (span_digits s) as [ [ | d ds ] u ];
    [ discriminate | ].
  intros [= <- <-]. simpl in *. lia.
Qed.

Lemma scan_exp_length (s e t : jsstring) :
  scan_exp s = Some (e, t) -> (length t <= length s)%nat.
Proof.
  destruct s as [ | c s ]; [ intros [= <- <-]; simpl; lia | ]. simpl.
  destruct ((c =? 101) || (c =? 69)); [ | intros [= <- <-]; simpl; lia ].
  assert (Hsign : (length (snd (scan_exp_sign s)) <= length s)%nat).
  { destruct s as [ | x s ]; simpl; [ lia | ].
    destruct ((x =? 43) || (x =? 45)); simpl; lia. }
  destruct (scan_exp_sign s) as [sg r1]. simpl in Hsign.
  pose proof (span_digits_length r1). destruct (span_digits r1) as [ [ | d ds ] u ];
    [ discriminate | ].
  intros [= <- <-]. simpl in *. lia.
Qed.

Lemma scan_number_length (s tok t : jsstring) :
  scan_number s = Some (tok, t) -> (length t < length s)%nat.
Proof.
  unfold scan_number.
  assert (Hsign : (length (snd (scan_sign s)) <= length s)%nat).
  { destruct s as [ | c s ]; simpl; [ lia | ]. destruct (c =? 45); simpl; lia. }
  destruct (scan_sign s) as [sg s1]. simpl in Hsign.
  destruct (scan_int s1) as [ [i s2] | ] eqn:Hi; [ | discriminate ].
  destruct (scan_frac s2) as [ [f s3] | ] eqn:Hf; [ | discriminate ].
  destruct (scan_exp s3) as [ [e s4] | ] eqn:He; [ | discriminate ].
  intros [= <- <-].
  apply scan_int_length in Hi. apply scan_frac_length in Hf. apply scan_exp_length in He.
  lia.
Qed.

Section Fuel.
Context {number : Type} `{JSNumber number}.

Lemma parse_atom_length (s : jsstring) (v : json number) (t : jsstring) :
  parse_atom s = Some (v, t) -> (length t < length s)%nat.
Proof.
  unfold parse_atom.
  destruct (strip_prefix (str "true") s) as [ u | ] eqn:Htrue.
  { intros [= <- <-]. apply strip_prefix_length in Htrue. simpl in Htrue. lia. }
  destruct (strip_prefix (str "false") s) as [ u | ] eqn:Hfalse.
  { intros [= <- <-]. apply strip_prefix_length in Hfalse. simpl in Hfalse. lia. }
  destruct (strip_prefix (str "null") s) as [ u | ] eqn:Hnull.
  { intros [= <- <-]. apply strip_prefix_length in Hnull. simpl in Hnull. lia. }
  destruct (scan_number s) as [ [tok u] | ] eqn:Hnum; [ | discriminate ].
  intros [= <- <-]. exact (scan_number_length _ _ _ Hnum).
Qed.

Lemma parse_value_step (f : nat) (s : jsstring) :
  parse_value (number := number) (S f) s
  = match skip_ws s with
    | [] => None
    | c :: r =>
        if c =? 34 then
          match parse_string_chars r with
          | Some (x, t) => Some (JStr x, t)
          | None => None
          end
        else if c =? 91 then
          match skip_ws r with
          | [] => None
          | d :: t =>
              if d =? 93 then Some (JArr [], t)
              else
                match parse_elements f r with
                | Some (l, u) => Some (JArr l, u)
                | None => None
                end
          end
        else if c =? 123 then
          match skip_ws r with
          | [] => None
          | d :: t =>
              if d =? 125 then Some (JObj [], t)
              else
                match parse_members f r with
                | Some (m, u) => Some (JObj (object_of_members m), u)
                | None => None
                end
          end
        else parse_atom (c :: r)
    end.
Proof. reflexivity. Qed.

Lemma parse_members_unfold (f : nat) (s : jsstring) :
  parse_members (number := number) (S f) s
  = match skip_ws s with
    | [] => None
    | q :: r => if q =? 34 then parse_members (S f) (34 :: r) else None
    end.
Proof.
  cbn [parse_members]. destruct (skip_ws s) as [ | q r ]; [ reflexivity | ].
  destruct (N.eqb_spec q 34) as [ -> | _ ]; reflexivity.
Qed.

Lemma parse_fuel_covers (f : nat) :
  (forall s v t, parse_value f s = Some (v, t) -> fuel_covers parse_value s v t)
  /\ (forall s l t, parse_elements f s = Some (l, t) -> fuel_covers parse_elements s l t)
  /\ (forall s m t, parse_members f s = Some (m, t) -> fuel_covers parse_members s m t).
Proof.
  induction f as [ | f [IHv [IHe IHm]] ];
    [ split; [ | split ]; intros ? ? ? Hparse; discriminate Hparse | ].
  split; [ | split ].
  - intros s v t. rewrite parse_value_step.
    destruct (skip_ws s) as [ | c r ] eqn:Hs; [ discriminate | ].
    pose proof (skip_ws_cons_length s c r Hs) as Hlen.
    destruct (c =? 34) eqn:H34.
    { destruct (parse_string_chars r) as [ [x u] | ] eqn:Hr; [ | discriminate ].
      intros [= <- <-]. pose proof (parse_string_chars_length _ _ _ Hr).
      split; [ lia | ]. intros [ | g ] Hg; [ lia | ].
      rewrite parse_value_step, Hs, H34, Hr. reflexivity. }
    destruct (c =? 91) eqn:H91.
    { destruct (skip_ws r) as [ | d u ] eqn:Hr; [ discriminate | ].
      pose proof (skip_ws_cons_length r d u Hr).
      destruct (d =? 93) eqn:H93.
      - intros [= <- <-]. split; [ lia | ]. intros [ | g ] Hg; [ lia | ].
        rewrite parse_value_step, Hs, H34, H91, Hr, H93. reflexivity.
      - destruct (parse_elements f r) as [ [l x] | ] eqn:Hl; [ | discriminate ].
        intros [= <- <-]. destruct (IHe _ _ _ Hl) as [Hlt Hfuel].
        split; [ lia | ]. intros [ | g ] Hg; [ lia | ].
        rewrite parse_value_step, Hs, H34, H91, Hr, H93, Hfuel by lia. reflexivity. }
    destruct (c =? 123) eqn:H123.
    { destruct (skip_ws r) as [ | d u ] eqn:Hr; [ discriminate | ].
      pose proof (skip_ws_cons_length r d u Hr).
      destruct (d =? 125) eqn:H125.
      - intros [= <- <-]. split; [ lia | ]. intros [ | g ] Hg; [ lia | ].
        rewrite parse_value_step, Hs, H34, H91, H123, Hr, H125. reflexivity.
      - destruct (parse_members f r) as [ [m x] | ] eqn:Hm; [ | discriminate ].
        intros [= <- <-]. destruct (IHm _ _ _ Hm) as [Hlt Hfuel].
        split; [ lia | ]. intros [ | g ] Hg; [ lia | ].
        rewrite parse_value_step, Hs, H34, H91, H123, Hr, H125, Hfuel by lia.
        reflexivity. }
    intros Hatom. pose proof (parse_atom_length _ _ _ Hatom) as Hlt. simpl in Hlt.
    split; [ lia | ]. intros [ | g ] Hg; [ lia | ].
    rewrite parse_value_step, Hs, H34, H91, H123. exact Hatom.
  - intros s l t. rewrite parse_elements_step.
    destruct (parse_value f s) as [ [v u] | ] eqn:Hv; [ | discriminate ].
    destruct (IHv _ _ _ Hv) as [Hlt Hfuel].
    destruct (skip_ws u) as [ | c x ] eqn:Hu; [ discriminate | ].
    pose proof (skip_ws_cons_length u c x Hu).
    destruct (c =? 44) eqn:H44.
    + destruct (parse_elements f x) as [ [l' y] | ] eqn:Hl; [ | discriminate ].
      intros [= <- <-]. destruct (IHe _ _ _ Hl) as [Hlt' Hfuel'].
      split; [ lia | ]. intros [ | g ] Hg; [ lia | ].
      rewrite parse_elements_step, Hfuel by lia. rewrite Hu, H44, Hfuel' by lia.
      reflexivity.
    + destruct (c =? 93) eqn:H93; [ | discriminate ].
      intros [= <- <-]. split; [ lia | ]. intros [ | g ] Hg; [ lia | ].
      rewrite parse_elements_step, Hfuel by lia. rewrite Hu, H44, H93. reflexivity.
  - intros s m t. rewrite parse_members_unfold.
    destruct (skip_ws s) as [ | q r ] eqn:Hs; [ discriminate | ].
    pose proof (skip_ws_cons_length s q r Hs) as Hlen.
    destruct (q =? 34) eqn:H34; [ | discriminate ].
    rewrite parse_members_step.
    destruct (parse_string_chars r) as [ [k u] | ] eqn:Hk; [ | discriminate ].
    pose proof (parse_string_chars_length _ _ _ Hk).
    destruct (skip_ws u) as [ | c x ] eqn:Hu; [ discriminate | ].
    pose proof (skip_ws_cons_length u c x Hu).
    destruct (c =? 58) eqn:H58; [ | discriminate ].
    destruct (parse_value f x) as [ [v y] | ] eqn:Hv; [ | discriminate ].
    destruct (IHv _ _ _ Hv) as [Hlt Hfuel].
    destruct (skip_ws y) as [ | e z ] eqn:Hy; [ discriminate | ].
    pose proof (skip_ws_cons_length y e z Hy).
    destruct (e =? 44) eqn:H44.
    + destruct (parse_members f z) as [ [m' z'] | ] eqn:Hm; [ | discriminate ].
      intros [= <- <-]. destruct (IHm _ _ _ Hm) as [Hlt' Hfuel'].
      split; [ lia | ]. intros [ | g ] Hg; [ lia | ].
      rewrite parse_members_unfold, Hs, H34, parse_members_step, Hk, Hu, H58.
      rewrite Hfuel by lia. rewrite Hy, H44, Hfuel' by lia. reflexivity.
    + destruct (e =? 125) eqn:H125; [ | discriminate ].
      intros [= <- <-]. split; [ lia | ]. intros [ | g ] Hg; [ lia | ].
      rewrite parse_members_unfold, Hs, H34, parse_members_step, Hk, Hu, H58.
      rewrite Hfuel by lia. rewrite Hy, H44, H125. reflexivity.
Qed.

(** [JSON_parse] rejects a text only when no amount of fuel reads a value
    followed by nothing but white space from it. *)
Lemma JSON_parse_complete (text : jsstring) (f : nat) (v : json number) (t : jsstring) :
  parse_value f text = Some (v, t) -> skip_ws t = [] -> JSON_parse text = Some v.
Proof.
  intros Hv Ht. destruct (proj1 (parse_fuel_covers f) _ _ _ Hv) as [Hlt Hfuel].
  unfold JSON_parse. rewrite Hfuel by lia. rewrite Ht. reflexivity.
Qed.

Lemma JSON_parse_valid (text : jsstring) :
  valid_JSON (number := number) text <-> exists v : json number, JSON_parse text = Some v.
Proof.
  split.
  - intros [f [v [t [Hv Ht]]]]. exists v. exact (JSON_parse_complete text f v t Hv Ht).
  - unfold JSON_parse. intros [v Hv].
    destruct (parse_value (S (length text)) text) as [ [v' t] | ] eqn:Hparse;
      [ | discriminate ].
    exists (S (length text)), v', t. split; [ exact Hparse | ].
    destruct (skip_ws t); [ reflexivity | discriminate ].
Qed.

End Fuel.

(** ** The integers satisfy what is asked of numbers *)

Lemma unstr_str (s : string) : unstr (str s) = s.
Proof.
  induction s as [ | a s IH ]; simpl; [ reflexivity | ].
  rewrite ascii_N_embedding, IH. reflexivity.
Qed.

Lemma digits_of_uint (d : Decimal.uint) :
  Forall (fun c => is_digit c = true) (str (NilEmpty.string_of_uint d)).
Proof. induction d; simpl; constructor; (reflexivity || assumption). Qed.

Lemma span_digits_all (s : jsstring) :
  Forall (fun c => is_digit c = true) s -> span_digits s = (s, []).
Proof.
  induction 1 as [ | c s Hc _ IH ]; simpl; [ reflexivity | ].
  rewrite Hc, IH. reflexivity.
Qed.

Lemma integer_part_digits (s : jsstring) :
  Forall (fun c => is_digit c = true) s -> integer_part s = s.
Proof.
  induction 1 as [ | c s Hc _ IH ]; simpl; [ reflexivity | ].
  rewrite Hc, IH, orb_true_r. reflexivity.
Qed.

Lemma scan_number_uint (d : Decimal.uint) :
  leading_nonzero d ->
  scan_number (str (NilEmpty.string_of_uint d)) = Some (str (NilEmpty.string_of_uint d), []).
Proof.
  intros Hd. pose proof (digits_of_uint d) as Hdigits.
  destruct d; try contradiction; simpl in *;
    inversion Hdigits as [ | c s Hc Hs ]; subst;
    unfold scan_number; simpl; rewrite (span_digits_all _ Hs); simpl;
    rewrite app_nil_r; reflexivity.
Qed.

Lemma scan_number_neg_uint (d : Decimal.uint) :
  leading_nonzero d ->
  scan_number (45 :: str (NilEmpty.string_of_uint d))
  = Some (45 :: str (NilEmpty.string_of_uint d), []).
Proof.
  intros Hd. pose proof (digits_of_uint d) as Hdigits.
  destruct d; try contradiction; simpl in *;
    inversion Hdigits as [ | c s Hc Hs ]; subst;
    unfold scan_number; simpl; rewrite (span_digits_all _ Hs); simpl;
    rewrite app_nil_r; reflexivity.
Qed.

Lemma to_uint_leading_nonzero (p : positive) : leading_nonzero (Pos.to_uint p).
Proof.
  pose proof (DecimalPos.Unsigned.to_of (Pos.to_uint p)) as Hnorm.
  rewrite DecimalPos.Unsigned.of_to in Hnorm. simpl in Hnorm.
  pose proof (DecimalPos.Unsigned.to_uint_nonzero p) as Hnz.
  pose proof (DecimalPos.Unsigned.to_uint_nonnil p) as Hnn.
  destruct (Pos.to_uint p) as [ | d | d | d | d | d | d | d | d | d | d ] eqn:Hp;
    simpl; try exact I; [ congruence | ].
  rewrite DecimalFacts.unorm_D0 in Hnorm. unfold Decimal.unorm in Hnorm.
  destruct (Decimal.nzhead d) eqn:Hd; try discriminate.
  - apply Hnz. exact Hnorm.
  - exfalso. apply (DecimalFacts.nzhead_nonzero d d). rewrite Hd. congruence.
Qed.

Lemma Z_toString_token (z : Z) :
  scan_number (Z_toString z) = Some (Z_toString z, []).
Proof.
  unfold Z_toString. destruct z as [ | p | p ]; [ reflexivity | | ];
    pose proof (to_uint_leading_nonzero p) as Hp; simpl;
    unfold NilZero.string_of_uint;
    destruct (Pos.to_uint p) eqn:Hd; try contradiction;
    first [ apply scan_number_uint | apply (scan_number_neg_uint) ]; exact I.
Qed.

Lemma Z_of_token_toString (z : Z) : Z_of_token (Z_toString z) = z.
Proof.
  unfold Z_of_token, Z_toString.
  assert (Hpart : integer_part (str (NilZero.string_of_int (Z.to_int z)))
                  = str (NilZero.string_of_int (Z.to_int z))).
  { destruct z as [ | p | p ]; [ reflexivity | | ]; simpl;
      pose proof (to_uint_leading_nonzero p) as Hp;
      unfold NilZero.string_of_uint;
      destruct (Pos.to_uint p) eqn:Hd; try contradiction;
      rewrite <- Hd; try (simpl; f_equal); apply integer_part_digits, digits_of_uint. }
  rewrite Hpart, unstr_str, NilZero.isi.
  - apply DecimalZ.of_to.
  - destruct z as [ | p | p ]; simpl; try discriminate.
    intros [= Hnil]. exact (DecimalPos.Unsigned.to_uint_nonnil p Hnil).
  - destruct z as [ | p | p ]; simpl; try discriminate.
    intros [= Hnil]. exact (DecimalPos.Unsigned.to_uint_nonnil p Hnil).
Qed.

(** Every integer is a number that round-trips. *)
Lemma Z_Number_roundtrips (z : Z) : Number_roundtrips z.
Proof.
  split; [ reflexivity | ]. split; [ apply Z_toString_token | apply Z_of_token_toString ].
Qed.

(** * The properties of the specification *)

(** Runs the constructor on given options in a given world. *)
Ltac constructs := unfold new_StoreProvider; reflexivity.

(** ** Key derivation *)

(** C5, as the code has it: without a key, and for the empty string given as
    key, the derived key is the prefix; for every non-empty key it is
    prefix, ":" and the key when the prefix is non-empty; with an empty
    prefix it is the key unchanged. *)
Theorem getKey_derivation (this : StoreProvider) :
  getKey this None = prefix this
  /\ getKey this (Some []) = prefix this
  /\ (forall key, key <> [] -> prefix this <> [] ->
        getKey this (Some key) = prefix this ++ str ":" ++ key)
  /\ (forall key, prefix this = [] -> getKey this (Some key) = key).
Proof.
  split; [ reflexivity | ]. split; [ reflexivity | ].
  split; [ apply getKey_nonempty | intros key; apply getKey_empty_prefix ].
Qed.

(** C5 as stated fails for the empty string: it is a given key, the prefix
    "p" is not empty, and the derived key is "p", not "p:". *)
Lemma getKey_empty_string_counterexample :
  exists this w,
    new_StoreProvider (options "memory" "p") server = (Ok this, w)
    /\ prefix this = str "p"
    /\ getKey this (Some (str EmptyString)) = str "p"
    /\ getKey this (Some (str EmptyString)) <> prefix this ++ str ":" ++ str EmptyString.
Proof.
  eexists _, _. split; [ constructs | ].
  split; [ reflexivity | ]. split; [ reflexivity | ]. discriminate.
Qed.

Lemma getKey_derivation_witness :
  exists this w,
    new_StoreProvider (options "memory" " app ") server = (Ok this, w)
    /\ getKey this None = str "app"
    /\ getKey this (Some (str EmptyString)) = str "app"
    /\ getKey this (Some (str "user")) = str "app:user".
Proof.
  eexists _, _. split; [ constructs | ].
  match goal with
  | |- getKey ?p None = _ /\ _ =>
      destruct (getKey_derivation p) as [Hnone [Hempty [Hkey _]]];
      split; [ etransitivity; [ exact Hnone | reflexivity ] | ];
      split; [ etransitivity; [ exact Hempty | reflexivity ] | ];
      etransitivity; [ apply (Hkey (str "user")); discriminate | reflexivity ]
  end.
Defined.

(** ** Prefix trimming *)

(** C8: the constructor stores the prefix without its leading and trailing
    white space, so two providers whose prefix arguments are one core
    surrounded by white space (the core may be empty) derive the same
    storage key from every key. *)
Theorem prefix_trimming (oa ob : Options.t) (wa wa' wb wb' : World)
    (a b : StoreProvider) (la ra lb rb core : jsstring) :
  all_whitespace la -> all_whitespace ra ->
  all_whitespace lb -> all_whitespace rb ->
  Options.prefix oa = StringValue (la ++ core ++ ra) ->
  Options.prefix ob = StringValue (lb ++ core ++ rb) ->
  new_StoreProvider oa wa = (Ok a, wa') ->
  new_StoreProvider ob wb = (Ok b, wb') ->
  prefix a = trim (la ++ core ++ ra)
  /\ (exists l r, all_whitespace l /\ all_whitespace r
        /\ la ++ core ++ ra = l ++ prefix a ++ r
        /\ (forall c t, prefix a = c :: t -> is_js_whitespace c = false)
        /\ (forall c t, prefix a = t ++ [c] -> is_js_whitespace c = false))
  /\ prefix a = prefix b
  /\ forall key, getKey a key = getKey b key.
Proof.
  intros Hla Hra Hlb Hrb Hpa Hpb Ha Hb.
  destruct (constructed_inv _ _ _ _ Ha) as [pa [Hda [Hta _]]].
  destruct (constructed_inv _ _ _ _ Hb) as [pb [Hdb [Htb _]]].
  rewrite Hpa in Hda. rewrite Hpb in Hdb. simpl in Hda, Hdb.
  injection Hda as <-. injection Hdb as <-.
  assert (Hab : prefix a = prefix b).
  { rewrite Hta, Htb, !trim_surrounding by assumption. reflexivity. }
  split; [ exact Hta | ]. split.
  - rewrite Hta. apply trim_spec.
  - split; [ exact Hab | ].
    intros key. unfold getKey. rewrite Hab. reflexivity.
Qed.

Lemma prefix_trimming_witness :
  exists a b wa wb,
    new_StoreProvider (options "memory" "  ") server = (Ok a, wa)
    /\ new_StoreProvider (options "memory" EmptyString) server = (Ok b, wb)
    /\ prefix a = prefix b
    /\ forall key, getKey a key = getKey b key.
Proof.
  eexists _, _, _, _. split; [ constructs | ]. split; [ constructs | ].
  eapply (prefix_trimming (options "memory" "  ") (options "memory" EmptyString)
            server _ server _ _ _ (str "  ") [] [] [] []).
  - repeat constructor.
  - constructor.
  - constructor.
  - constructor.
  - reflexivity.
  - reflexivity.
  - constructs.
  - constructs.
Defined.

(** ** Construction errors *)

(** When the constructor throws: exactly when the options carry a
    [storeType] that is not one of the three names or a [prefix] that is not
    a string, or when there is a [window] whose property for the requested
    storage cannot be read.  What the two storage objects hold or refuse
    plays no part. *)
Lemma constructor_throws_cases (o : Options.t) (w : World) :
  (exists e w', new_StoreProvider o w = (Throw e, w'))
  <-> unsupported_storeType o \/ non_string_prefix o
      \/ (exists st,
            supported_storeType (default_value (Options.storeType o) (str "localStorage"))
            = Some st
            /\ window w = true /\ storage_blocked st w = true).
Proof.
  unfold unsupported_storeType, non_string_prefix.
  destruct (supported_storeType (default_value (Options.storeType o) (str "localStorage")))
    as [ st | ] eqn:Hst.
  - destruct (default_value (Options.prefix o) (str "test-app")) as [ | p | ] eqn:Hp.
    + destruct (Options.prefix o); discriminate.
    + destruct (window w && storage_blocked st w) eqn:Hblocked.
      * apply andb_true_iff in Hblocked as [Hw Hb].
        split; [ intros _; right; right; eauto | ].
        intros _. rewrite (constructor_blocked o w st p Hst Hp Hw Hb). eauto.
      * destruct (constructor_returns o w st p Hst Hp) as [this [w' Hnew]].
        { intros Hw. rewrite Hw in Hblocked. exact Hblocked. }
        split.
        -- intros [e [w1 Hthrow]]. congruence.
        -- intros [ [Hne Hnone] | [ Hother | [st' [Hst' [Hw Hb]]] ] ].
           ++ destruct (Options.storeType o); cbn [default_value] in Hst; congruence.
           ++ rewrite Hother in Hp. discriminate.
           ++ injection Hst' as <-. rewrite Hw, Hb in Hblocked. discriminate.
    + assert (Hother : Options.prefix o = OtherValue)
        by (destruct (Options.prefix o); simpl in Hp; congruence).
      split; [ auto | ].
      intros _. unfold new_StoreProvider. rewrite Hst, Hp. unfold throw. eauto.
  - assert (Hbad : Options.storeType o <> Undefined
                   /\ supported_storeType (Options.storeType o) = None).
    { destruct (Options.storeType o); cbn [default_value] in Hst;
        try discriminate; split; congruence. }
    split; [ auto | ].
    intros _. unfold new_StoreProvider. rewrite Hst. unfold throw. eauto.
Qed.

(** C4: the constructor can throw although [storeType] is one of the three
    names and [prefix] is a string.  In a browser that denies the page its
    storage, [factory()] reads [window.localStorage] before, and outside,
    the [try] of [#canUseWebStorage]: the SecurityError leaves the
    constructor, and no fallback to memory takes place. *)
Theorem constructor_throws_on_blocked_storage :
  ~ (unsupported_storeType (options "localStorage" "app")
     \/ non_string_prefix (options "localStorage" "app"))
  /\ new_StoreProvider (options "localStorage" "app") locked_browser
     = (Throw SecurityError, locked_browser).
Proof.
  split.
  - intros [ [_ Hnone] | Hother ]; discriminate.
  - apply (constructor_blocked _ _ localStorage (str "app")); reflexivity.
Qed.

(** ** Fallback to memory *)

Section Fallback.
Context {number : Type} `{JSNumber number}.

(** C3: when the options are valid, a persistent backend is requested in a
    browser and the probe write on it throws, the constructor returns an
    instance whose backend is a fresh, empty Map; on that instance, in every
    later world, [setValue] and [getValue] return without throwing, a write
    leaves both storage objects as they were, and the next read of the key
    decodes what was written. *)
Theorem fallback_to_memory (o : Options.t) (w : World) (st : StoreType)
    (p : jsstring) (s : StorageRef) :
  supported_storeType (default_value (Options.storeType o) (str "localStorage")) = Some st ->
  default_value (Options.prefix o) (str "test-app") = StringValue p ->
  window w = true ->
  persistent_backend st = Some s ->
  probe_write_throws s w ->
  exists this w',
    new_StoreProvider o w = (Ok this, w')
    /\ storeType this = memory
    /\ (exists id, currentStorage this = MapRef id)
    /\ backing_store this w' = ∅
    /\ forall (w2 : World) (key : jsstring) (value : json number),
         (exists v, getValue this key w2 = (Ok v, w2))
         /\ exists w3,
              setValue this key value w2 = (Ok tt, w3)
              /\ window_localStorage w3 = window_localStorage w2
              /\ window_sessionStorage w3 = window_sessionStorage w2
              /\ getValue this key w3 = (Ok (deserialize (Some (serialize value))), w3).
Proof.
  intros Hst Hp Hw Hs [Hread [e [w1 Hprobe]]].
  assert (w1 = w) by exact (setItem_throws_unchanged _ _ _ _ _ _ Hprobe). subst w1.
  assert (Hinit : initStorage st (negb (window w)) w
                  = (Ok (memory, MapRef (fresh (dom (maps w)))),
                     set_maps w (<[fresh (dom (maps w)) := ∅]> (maps w)))).
  { unfold initStorage. rewrite Hw. simpl.
    destruct st; simpl in Hs; [ discriminate | injection Hs as <- | injection Hs as <- ];
      simpl in Hread; apply negb_true_iff in Hread;
      simpl; unfold bind at 1;
      [ unfold get_window_localStorage | unfold get_window_sessionStorage ];
      rewrite Hw, Hread; unfold bind at 1, canUseWebStorage, try_catch; unfold bind at 1;
      rewrite Hprobe; reflexivity. }
  unfold new_StoreProvider. rewrite Hst, Hp.
  unfold bind at 1. unfold typeof_window_undefined. unfold bind at 1.
  rewrite Hinit. unfold ret.
  eexists _, _. split; [ reflexivity | ]. split; [ reflexivity | ].
  split; [ eexists; reflexivity | ].
  split; [ apply map_contents_set | ].
  intros w2 key value.
  match goal with
  | |- context [ getValue ?this _ _ ] =>
      assert (Hok : adapter_ok this) by (split; [ reflexivity | simpl; eauto ]);
      set (inst := this) in *
  end.
  split; [ rewrite getValue_spec by exact Hok; eauto | ].
  destruct (setValue_spec inst key value w2 Hok) as [ [Hne _] | [w3 [Hset Hstore]] ].
  - exfalso. apply Hne. reflexivity.
  - exists w3. split; [ exact Hset | ].
    unfold setValue in Hset. simpl in Hset. injection Hset as <-.
    split; [ reflexivity | ]. split; [ reflexivity | ].
    apply (setValue_getValue inst key value w2); [ exact Hok | reflexivity ].
Qed.

End Fallback.

Lemma fallback_to_memory_witness :
  exists this w',
    new_StoreProvider (options "sessionStorage" "app") (browser ∅) = (Ok this, w')
    /\ storeType this = memory
    /\ (exists id, currentStorage this = MapRef id)
    /\ backing_store this w' = ∅
    /\ forall (w2 : World) (key : jsstring) (value : json Z),
         (exists v, getValue this key w2 = (Ok v, w2))
         /\ exists w3,
              setValue this key value w2 = (Ok tt, w3)
              /\ window_localStorage w3 = window_localStorage w2
              /\ window_sessionStorage w3 = window_sessionStorage w2
              /\ getValue this key w3 = (Ok (deserialize (Some (serialize value))), w3).
Proof.
  apply (fallback_to_memory (options "sessionStorage" "app") (browser ∅)
           sessionStorage (str "app") SessionStorageRef).
  - reflexivity.
  - reflexivity.
  - reflexivity.
  - reflexivity.
  - split; [ reflexivity | ]. exists DOMException, (browser ∅). reflexivity.
Defined.

(** ** Reads *)

(** A write through one adapter changes no other storage object. *)
Lemma setRaw_frame (this : StoreProvider) (key raw : jsstring) (w : World) (c : StorageRef) :
  adapter_ok this -> c <> currentStorage this ->
  stored c (snd (setRaw (store this) key raw w)) = stored c w.
Proof.
  intros Hok Hne. destruct Hok as [Hstore Hc]. rewrite Hstore.
  destruct (storeType this); simpl in Hc; [ destruct Hc as [id Hc] | | ];
    rewrite Hc in *; simpl.
  - destruct c as [ id' | | ]; simpl; try reflexivity.
    unfold map_contents. simpl. rewrite lookup_insert_ne by congruence. reflexivity.
  - destruct (Storage_put _ _ _); destruct c; try reflexivity; congruence.
  - destruct (Storage_put _ _ _); destruct c; try reflexivity; congruence.
Qed.

Section Reads.
Context {number : Type} `{JSNumber number}.

(** C10: on every instance, in every world and for every key, [getValue]
    returns without throwing and leaves the world, and with it every
    key-to-raw-string mapping, exactly as it was. *)
Theorem getValue_read_only (o : Options.t) (w0 w1 : World) (this : StoreProvider)
    (key : jsstring) (w : World) :
  new_StoreProvider o w0 = (Ok this, w1) ->
  exists v : json number, getValue this key w = (Ok v, w).
Proof.
  intros Hnew. rewrite getValue_spec by exact (constructed_adapter_ok _ _ _ _ Hnew).
  eauto.
Qed.

(** C6: when the entry under the derived key is a raw string that is not
    valid JSON, [getValue] returns that string and does not throw. *)
Theorem non_JSON_tolerance (o : Options.t) (w0 w1 : World) (this : StoreProvider)
    (key raw : jsstring) (w : World) :
  new_StoreProvider o w0 = (Ok this, w1) ->
  backing_store this w !! getKey this (Some key) = Some raw ->
  ~ valid_JSON (number := number) raw ->
  getValue (number := number) this key w = (Ok (JStr raw), w).
Proof.
  intros Hnew Hraw Hbad.
  rewrite getValue_spec by exact (constructed_adapter_ok _ _ _ _ Hnew).
  rewrite Hraw. unfold deserialize.
  destruct (JSON_parse raw) as [ v | ] eqn:Hparse; [ | reflexivity ].
  exfalso. apply Hbad, JSON_parse_valid. eauto.
Qed.

(** C9: after a successful [setValue(key, null)], [getValue(key)] returns
    null, which is also what it returns for every key without an entry. *)
Theorem null_same_as_miss (o : Options.t) (w0 w1 : World) (this : StoreProvider)
    (key : jsstring) (w w' : World) :
  new_StoreProvider o w0 = (Ok this, w1) ->
  setValue this key (@JNull number) w = (Ok tt, w') ->
  getValue this key w' = (Ok (@JNull number), w')
  /\ forall (w2 : World) (key2 : jsstring),
       backing_store this w2 !! getKey this (Some key2) = None ->
       getValue this key2 w2 = (Ok (@JNull number), w2).
Proof.
  intros Hnew Hset. pose proof (constructed_adapter_ok _ _ _ _ Hnew) as Hok.
  split.
  - rewrite (setValue_getValue this key JNull w w' Hok Hset).
    unfold deserialize, serialize. cbn [JSON_stringify].
    rewrite JSON_parse_null. reflexivity.
  - intros w2 key2 Hmiss. rewrite getValue_spec by exact Hok.
    rewrite Hmiss. reflexivity.
Qed.

(** C2, as the code has it: when the prefix arguments of two instances
    differ after trimming, a [setValue] through one of them, whether it
    returns or throws, does not change what [getValue] of the same key
    returns through the other, whichever storage objects the two use. *)
Theorem prefix_isolation (oa ob : Options.t) (wa wa' wb wb' : World)
    (a b : StoreProvider) (pa pb key : jsstring) (value : json number) (w : World) :
  new_StoreProvider oa wa = (Ok a, wa') ->
  new_StoreProvider ob wb = (Ok b, wb') ->
  default_value (Options.prefix oa) (str "test-app") = StringValue pa ->
  default_value (Options.prefix ob) (str "test-app") = StringValue pb ->
  trim pa <> trim pb ->
  fst (getValue (number := number) b key (snd (setValue a key value w)))
  = fst (getValue (number := number) b key w).
Proof.
  intros Ha Hb Hpa Hpb Hdiff.
  destruct (constructed_inv _ _ _ _ Ha) as [pa' [Hpa' [Hta _]]].
  destruct (constructed_inv _ _ _ _ Hb) as [pb' [Hpb' [Htb _]]].
  assert (pa' = pa) by congruence. assert (pb' = pb) by congruence. subst pa' pb'.
  pose proof (constructed_adapter_ok _ _ _ _ Ha) as Hoka.
  pose proof (constructed_adapter_ok _ _ _ _ Hb) as Hokb.
  assert (Hkeys : getKey a (Some key) <> getKey b (Some key)).
  { apply getKey_prefix_apart. congruence. }
  rewrite !getValue_spec by exact Hokb. cbn [fst]. f_equal. f_equal.
  unfold backing_store.
  destruct (decide (currentStorage b = currentStorage a)) as [Heq | Hne].
  - rewrite Heq.
    destruct (setValue_spec a key value w Hoka) as [ [_ Hthrow] | [w' [Hset Hstore]] ].
    + rewrite Hthrow. reflexivity.
    + rewrite Hset. cbn [snd]. unfold backing_store in Hstore.
      rewrite Hstore, lookup_insert_ne by exact Hkeys. reflexivity.
  - unfold setValue. rewrite setRaw_frame by assumption. reflexivity.
Qed.

(** C7, as the code has it: when the derived key of [key] has no entry
    before a sequence of calls on the instance and no call sets [key], or
    the last call that sets or removes [key] removes it, [getValue(key)]
    after the sequence returns null and does not throw.  An instance whose
    backend is memory starts without entries. *)
Theorem miss_law (o : Options.t) (w0 w1 : World) (this : StoreProvider)
    (key : jsstring) (cs : list (call number)) (w : World) :
  new_StoreProvider o w0 = (Ok this, w1) ->
  absent_after key cs
    (bool_decide (backing_store this w !! getKey this (Some key) = None)) = true ->
  getValue this key (perform_all this cs w) = (Ok (@JNull number), perform_all this cs w)
  /\ (storeType this = memory -> backing_store this w1 = ∅).
Proof.
  intros Hnew Habsent.
  pose proof (constructed_adapter_ok _ _ _ _ Hnew) as Hok.
  split; [ | destruct (constructed_inv _ _ _ _ Hnew) as [p Hp]; apply Hp ].
  rewrite getValue_spec by exact Hok.
  assert (Hinv : forall calls u absent,
             (absent = true -> backing_store this u !! getKey this (Some key) = None) ->
             absent_after key calls absent = true ->
             backing_store this (perform_all this calls u) !! getKey this (Some key) = None).
  { intros calls. induction calls as [ | c calls IH ]; intros u absent Hu Hafter.
    - cbn [absent_after] in Hafter. apply Hu, Hafter.
    - unfold perform_all in *. cbn [fold_left]. destruct c as [ k v | k | k ];
        cbn [absent_after] in Hafter; (eapply IH; [ | exact Hafter ]);
        cbn [perform].
      + destruct (decide (k = key)) as [ -> | Hk ]; [ discriminate | ].
        intros Hab. specialize (Hu Hab).
        destruct (setValue_spec this k v u Hok) as [ [_ Hthrow] | [u' [Hset Hstore]] ].
        * rewrite Hthrow. exact Hu.
        * rewrite Hset. cbn [snd]. rewrite Hstore, lookup_insert_ne; [ exact Hu | ].
          intros Heq. apply Hk. exact (getKey_inj this k key Heq).
      + rewrite getValue_spec by exact Hok. exact Hu.
      + destruct (removeValue_spec this k u Hok) as [u' [Hrem Hstore]].
        rewrite Hrem. cbn [snd]. rewrite Hstore.
        destruct (decide (k = key)) as [ -> | Hk ].
        * intros _. apply lookup_delete_eq.
        * intros Hab. rewrite lookup_delete_ne; [ exact (Hu Hab) | ].
          intros Heq. apply Hk. exact (getKey_inj this k key Heq). }
  rewrite (Hinv cs w _ (fun Hb => proj1 (bool_decide_eq_true _) Hb) Habsent). reflexivity.
Qed.

(** C1: on an instance whose backend is memory, [setValue(key, value)] with a
    JSON-serializable value returns, and [getValue(key)] then returns that
    value. *)
Theorem memory_roundtrip (o : Options.t) (w0 w1 : World) (this : StoreProvider)
    (key : jsstring) (value : json number) (w : World) :
  new_StoreProvider o w0 = (Ok this, w1) ->
  storeType this = memory ->
  serializable value ->
  exists w', setValue this key value w = (Ok tt, w')
    /\ getValue this key w' = (Ok value, w').
Proof.
  intros Hnew Hmem Hser. pose proof (constructed_adapter_ok _ _ _ _ Hnew) as Hok.
  destruct (setValue_spec this key value w Hok) as [ [Hne _] | [w' [Hset _]] ];
    [ contradiction | ].
  exists w'. split; [ exact Hset | ].
  rewrite (setValue_getValue this key value w w' Hok Hset).
  unfold deserialize, serialize. rewrite JSON_parse_stringify by exact Hser. reflexivity.
Qed.

End Reads.

(** ** The properties on sample runs *)

Lemma getValue_read_only_witness :
  exists this w1,
    new_StoreProvider (options "localStorage" "app") (browser ∅) = (Ok this, w1)
    /\ exists v : json Z, getValue this (str "k") w1 = (Ok v, w1).
Proof.
  eexists _, _. split; [ constructs | ].
  eapply (getValue_read_only (options "localStorage" "app") (browser ∅) _ _).
  constructs.
Defined.

Lemma non_JSON_tolerance_witness :
  exists this w1,
    new_StoreProvider (options "localStorage" "app")
      (browser {[ str "app:greeting" := str "hello" ]}) = (Ok this, w1)
    /\ getValue (number := Z) this (str "greeting") w1 = (Ok (JStr (str "hello")), w1).
Proof.
  eexists _, _. split; [ constructs | ].
  eapply (non_JSON_tolerance (options "localStorage" "app")
           (browser {[ str "app:greeting" := str "hello" ]}) _ _).
  - constructs.
  - vm_compute. reflexivity.
  - intros Hvalid. apply JSON_parse_valid in Hvalid. destruct Hvalid as [v Hv].
    vm_compute in Hv. discriminate Hv.
Defined.

Lemma null_same_as_miss_witness :
  exists this w1 w2,
    new_StoreProvider (options "memory" "app") server = (Ok this, w1)
    /\ setValue (number := Z) this (str "k") JNull w1 = (Ok tt, w2)
    /\ getValue (number := Z) this (str "k") w2 = (Ok JNull, w2)
    /\ getValue (number := Z) this (str "other") w2 = (Ok JNull, w2).
Proof.
  eexists _, _, _. split; [ constructs | ]. split; [ reflexivity | ].
  match goal with
  | |- getValue ?this _ ?w2 = _ /\ _ =>
      destruct (null_same_as_miss (number := Z) (options "memory" "app") server _ this
                  (str "k") _ w2 ltac:(constructs) eq_refl) as [Hnull Hmiss]
  end.
  split; [ exact Hnull | ].
  apply Hmiss. vm_compute. reflexivity.
Defined.

(** C2 as stated fails: "a" and "a " are different prefix strings, both
    instances use localStorage, and the value written through the first
    under "x" is what the second reads under "x". *)
Lemma prefix_isolation_counterexample :
  exists a b w1 w2,
    new_StoreProvider (options "localStorage" "a") (browser ∅) = (Ok a, w1)
    /\ new_StoreProvider (options "localStorage" "a ") w1 = (Ok b, w2)
    /\ str "a" <> str "a "
    /\ fst (getValue (number := Z) b (str "x") w2) = Ok JNull
    /\ fst (getValue (number := Z) b (str "x")
              (snd (setValue (number := Z) a (str "x") (JBool true) w2)))
       = Ok (JBool true).
Proof.
  eexists _, _, _, _. split; [ constructs | ]. split; [ constructs | ].
  split; [ discriminate | ]. split; vm_compute; reflexivity.
Qed.

(** Isolation is per key: with the prefixes "a" and "a:b", which differ
    after trimming too, the key "b:c" of the first instance and the key "c"
    of the second derive the same storage key. *)
Example derived_keys_meet :
  exists a b w1 w2,
    new_StoreProvider (options "localStorage" "a") (browser ∅) = (Ok a, w1)
    /\ new_StoreProvider (options "localStorage" "a:b") (browser ∅) = (Ok b, w2)
    /\ getKey a (Some (str "b:c")) = getKey b (Some (str "c")).
Proof.
  eexists _, _, _, _. split; [ constructs | ]. split; [ constructs | ]. reflexivity.
Qed.

Lemma prefix_isolation_witness :
  exists a b w1 w2,
    new_StoreProvider (options "localStorage" "a") (browser ∅) = (Ok a, w1)
    /\ new_StoreProvider (options "localStorage" "b") (browser ∅) = (Ok b, w2)
    /\ fst (getValue (number := Z) b (str "x")
              (snd (setValue (number := Z) a (str "x") (JBool true) w2)))
       = fst (getValue (number := Z) b (str "x") w2).
Proof.
  eexists _, _, _, _. split; [ constructs | ]. split; [ constructs | ].
  eapply (prefix_isolation (number := Z) (options "localStorage" "a")
            (options "localStorage" "b") (browser ∅) _ (browser ∅) _ _ _
            (str "a") (str "b")).
  - constructs.
  - constructs.
  - reflexivity.
  - reflexivity.
  - vm_compute. discriminate.
Defined.

(** C7 as stated fails on a persistent backend: no call has been made on
    the instance, so "a" was never set through it, and [getValue("a")]
    returns the value an earlier page left in localStorage. *)
Lemma miss_law_counterexample :
  exists this w1,
    new_StoreProvider (options "localStorage" "p")
      (browser {[ str "p:a" := str "true" ]}) = (Ok this, w1)
    /\ getValue (number := Z) this (str "a") (perform_all this [] w1)
       = (Ok (JBool true), w1)
    /\ @JBool Z true <> JNull.
Proof.
  eexists _, _. split; [ constructs | ].
  split; [ vm_compute; reflexivity | discriminate ].
Qed.

Lemma miss_law_witness :
  exists this w1,
    new_StoreProvider (options "memory" "t") server = (Ok this, w1)
    /\ let calls := [ SetValue (str "a") (JObj [(str "n", JNum 1%Z)]);
                      RemoveValue (str "a");
                      SetValue (str "b") (JBool true) ] in
       getValue (number := Z) this (str "a") (perform_all this calls w1)
       = (Ok JNull, perform_all this calls w1).
Proof.
  eexists _, _. split; [ constructs | ].
  eapply (miss_law (number := Z) (options "memory" "t") server _ _).
  - constructs.
  - vm_compute. reflexivity.
Defined.

Lemma memory_roundtrip_witness :
  exists this w1,
    new_StoreProvider (options "memory" "t") server = (Ok this, w1)
    /\ let value := JObj [(str "n", JNum 1%Z)] in
       exists w2, setValue this (str "a") value w1 = (Ok tt, w2)
         /\ getValue this (str "a") w2 = (Ok value, w2).
Proof.
  eexists _, _. split; [ constructs | ].
  eapply (memory_roundtrip (number := Z) (options "memory" "t") server _ _).
  - constructs.
  - reflexivity.
  - simpl. split; [ apply NoDup_singleton | ].
    split; [ | exact I ].
    split; [ repeat constructor | ].
    split; [ reflexivity | ]. split; reflexivity.
Defined.

(** * Further properties of the code *)

(** ** What construction does to the world *)

(** [#initStorage], case by case. *)
Lemma initStorage_spec (st : StoreType) (w : World) :
  initStorage st (negb (window w)) w
  = match persistent_backend st with
    | Some s =>
        if window w then
          if storage_blocked st w then (Throw SecurityError, w)
          else if refuses s w probe_key (str "1")
               then (Ok (memory, MapRef (fresh (dom (maps w)))), allocated w)
               else (Ok (st, s), probed s w)
        else (Ok (memory, MapRef (fresh (dom (maps w)))), allocated w)
    | None => (Ok (memory, MapRef (fresh (dom (maps w)))), allocated w)
    end.
Proof.
  unfold initStorage, probed, refuses, probe_key.
  destruct (window w) eqn:Hw; simpl.
  - destruct st; simpl; [ reflexivity | | ].
    + unfold bind at 1, get_window_localStorage. rewrite Hw.
      destruct (localStorage_blocked w); [ reflexivity | ].
      unfold bind at 1, canUseWebStorage, try_catch. unfold bind at 1.
      simpl. unfold Storage_put.
      destruct (denies (window_localStorage w) _ _ _); reflexivity.
    + unfold bind at 1, get_window_sessionStorage. rewrite Hw.
      destruct (sessionStorage_blocked w); [ reflexivity | ].
      unfold bind at 1, canUseWebStorage, try_catch. unfold bind at 1.
      simpl. unfold Storage_put.
      destruct (denies (window_sessionStorage w) _ _ _); reflexivity.
  - destruct st; reflexivity.
Qed.

(** The constructor on valid options, case by case. *)
Lemma new_StoreProvider_spec (o : Options.t) (w : World) (st : StoreType) (p : jsstring) :
  supported_storeType (default_value (Options.storeType o) (str "localStorage")) = Some st ->
  default_value (Options.prefix o) (str "test-app") = StringValue p ->
  new_StoreProvider o w
  = let '(init, w') := initStorage st (negb (window w)) w in
    match init with
    | Ok (st', c) =>
        (Ok {| storeType := st'; prefix := trim p; isServer := negb (window w);
               currentStorage := c; store := adaptStorage st' c |}, w')
    | Throw e => (Throw e, w')
    end.
Proof.
  intros Hst Hp. unfold new_StoreProvider. rewrite Hst, Hp.
  unfold bind at 1. unfold typeof_window_undefined. unfold bind at 1.
  destruct (initStorage st (negb (window w)) w) as [ [ [st' c] | e ] w' ]; reflexivity.
Qed.

(** Every construction that returns had valid options. *)
Lemma constructed_options (o : Options.t) (w w' : World) (this : StoreProvider) :
  new_StoreProvider o w = (Ok this, w') ->
  exists st p,
    supported_storeType (default_value (Options.storeType o) (str "localStorage")) = Some st
    /\ default_value (Options.prefix o) (str "test-app") = StringValue p.
Proof.
  unfold new_StoreProvider.
  destruct (supported_storeType _) as [ st | ]; [ | discriminate ].
  destruct (default_value (Options.prefix o) _) as [ | p | ]; try discriminate.
  eauto.
Qed.

(** An instance on memory: its Map is new and empty, nothing else changed. *)
Lemma constructed_memory (o : Options.t) (w w' : World) (this : StoreProvider) :
  new_StoreProvider o w = (Ok this, w') ->
  storeType this = memory ->
  currentStorage this = MapRef (fresh (dom (maps w))) /\ w' = allocated w.
Proof.
  intros Hnew Hmem. destruct (constructed_options _ _ _ _ Hnew) as [st [p [Hst Hp]]].
  rewrite (new_StoreProvider_spec o w st p Hst Hp), initStorage_spec in Hnew.
  destruct (persistent_backend st) as [ s | ] eqn:Hs.
  - destruct (window w); [ | injection Hnew as <- <-; split; reflexivity ].
    destruct (storage_blocked st w); [ discriminate | ].
    destruct (refuses s w probe_key (str "1")).
    + injection Hnew as <- <-. split; reflexivity.
    + injection Hnew as <- <-. simpl in Hmem. subst st. discriminate.
  - injection Hnew as <- <-. split; reflexivity.
Qed.

(** An instance on a persistent backend: the probe went through. *)
Lemma constructed_persistent (o : Options.t) (w w' : World) (this : StoreProvider) :
  new_StoreProvider o w = (Ok this, w') ->
  storeType this <> memory ->
  window w = true
  /\ persistent_backend (storeType this) = Some (currentStorage this)
  /\ refuses (currentStorage this) w probe_key (str "1") = false
  /\ w' = probed (currentStorage this) w.
Proof.
  intros Hnew Hmem. destruct (constructed_options _ _ _ _ Hnew) as [st [p [Hst Hp]]].
  rewrite (new_StoreProvider_spec o w st p Hst Hp), initStorage_spec in Hnew.
  destruct (persistent_backend st) as [ s | ] eqn:Hs.
  - destruct (window w) eqn:Hw, (storage_blocked st w) eqn:Hb,
      (refuses s w probe_key (str "1")) eqn:Hr;
      try discriminate; injection Hnew as <- <-; cbn in Hmem |- *;
      try congruence; auto.
  - injection Hnew as <- <-. cbn in Hmem. congruence.
Qed.

(** What a probe that goes through leaves behind. *)
Lemma probed_stored (s : StorageRef) (w : World) (st : StoreType) :
  persistent_backend st = Some s ->
  refuses s w probe_key (str "1") = false ->
  stored s (probed s w) = delete probe_key (stored s w)
  /\ maps (probed s w) = maps w
  /\ window (probed s w) = window w
  /\ forall c, c <> s -> stored c (probed s w) = stored c w.
Proof.
  intros Hs Hr. unfold probed, refuses in *.
  destruct st; simpl in Hs; [ discriminate | injection Hs as <- | injection Hs as <- ];
    simpl in *; unfold Storage_put; rewrite Hr; simpl;
    (split; [ apply delete_insert_eq | ]); (split; [ reflexivity | ]);
    (split; [ reflexivity | ]); intros [ id | | ] Hc; try reflexivity; congruence.
Qed.

(** X1: the backend an instance ends on is the requested kind exactly when
    there is a [window], the kind is persistent and the probe write is not
    refused; in every other case it is memory.  [#isServer] records the
    absence of a [window]. *)
Theorem backend_selection (o : Options.t) (w w' : World) (this : StoreProvider)
    (st : StoreType) :
  new_StoreProvider o w = (Ok this, w') ->
  supported_storeType (default_value (Options.storeType o) (str "localStorage")) = Some st ->
  storeType this = selected_storeType st w /\ isServer this = negb (window w).
Proof.
  intros Hnew Hst. destruct (constructed_options _ _ _ _ Hnew) as [st' [p [Hst' Hp]]].
  assert (st' = st) by congruence. subst st'.
  rewrite (new_StoreProvider_spec o w st p Hst Hp), initStorage_spec in Hnew.
  unfold selected_storeType, probe_refused.
  destruct st; cbn [persistent_backend is_memory negb andb] in *;
    rewrite ?andb_true_r, ?andb_false_r in *;
    destruct (window w); cbn [andb negb] in *;
    try (destruct (storage_blocked _ w); [ discriminate | ]);
    try (destruct (refuses _ w probe_key (str "1")));
    injection Hnew as <- <-; split; reflexivity.
Qed.

Lemma backend_selection_witness :
  exists this w',
    new_StoreProvider (options "sessionStorage" "app") (browser ∅) = (Ok this, w')
    /\ storeType this = memory /\ isServer this = false.
Proof.
  eexists _, _. split; [ constructs | ].
  eapply (backend_selection (options "sessionStorage" "app") (browser ∅) _ _ sessionStorage).
  - constructs.
  - reflexivity.
Defined.

(** X2: a probe that goes through, on a storage object that was handed out,
    keeps the requested persistent backend, removes whatever entry the store
    held under "__ws_test__" and leaves every other entry, the other storage
    object and all Maps as they were. *)
Theorem successful_probe (o : Options.t) (w : World) (st : StoreType)
    (p : jsstring) (s : StorageRef) :
  supported_storeType (default_value (Options.storeType o) (str "localStorage")) = Some st ->
  default_value (Options.prefix o) (str "test-app") = StringValue p ->
  window w = true ->
  persistent_backend st = Some s ->
  readable s w = true ->
  refuses s w probe_key (str "1") = false ->
  exists this w',
    new_StoreProvider o w = (Ok this, w')
    /\ storeType this = st
    /\ currentStorage this = s
    /\ backing_store this w' = delete probe_key (stored s w)
    /\ maps w' = maps w
    /\ forall c, c <> s -> stored c w' = stored c w.
Proof.
  intros Hst Hp Hw Hs Hread Hr.
  assert (Hb : storage_blocked st w = false).
  { destruct st; simpl in Hs; [ discriminate | injection Hs as <- | injection Hs as <- ];
      simpl in Hread |- *; apply negb_true_iff, Hread. }
  rewrite (new_StoreProvider_spec o w st p Hst Hp), initStorage_spec, Hs, Hw, Hb, Hr.
  eexists _, _. split; [ reflexivity | ].
  split; [ reflexivity | ]. split; [ reflexivity | ].
  unfold backing_store. cbn [currentStorage].
  destruct (probed_stored s w st Hs Hr) as [Hstored [Hmaps [_ Hother]]].
  auto.
Qed.

Lemma successful_probe_witness :
  exists this w',
    new_StoreProvider (options "localStorage" "app")
      (browser {[ str "__ws_test__" := str "kept?"; str "app:a" := str "1" ]})
    = (Ok this, w')
    /\ storeType this = localStorage
    /\ backing_store this w' !! str "__ws_test__" = None
    /\ backing_store this w' !! str "app:a" = Some (str "1").
Proof.
  destruct (successful_probe (options "localStorage" "app")
              (browser {[ str "__ws_test__" := str "kept?"; str "app:a" := str "1" ]})
              localStorage (str "app") LocalStorageRef
              eq_refl eq_refl eq_refl eq_refl eq_refl eq_refl)
    as [this [w' [Hnew [Hst [_ [Hstore _]]]]]].
  exists this, w'. split; [ exact Hnew | ]. split; [ exact Hst | ].
  rewrite Hstore. split; vm_compute; reflexivity.
Defined.

(** X3: an instance that ends on memory, by request, on the server or after
    a refused probe, got a Map that did not exist before and is empty;
    both storage objects and every other Map are as they were. *)
Theorem memory_construction_effect (o : Options.t) (w w' : World) (this : StoreProvider) :
  new_StoreProvider o w = (Ok this, w') ->
  storeType this = memory ->
  exists id,
    currentStorage this = MapRef id
    /\ maps w !! id = None
    /\ maps w' = <[id := ∅]> (maps w)
    /\ window_localStorage w' = window_localStorage w
    /\ window_sessionStorage w' = window_sessionStorage w
    /\ window w' = window w.
Proof.
  intros Hnew Hmem. destruct (constructed_memory _ _ _ _ Hnew Hmem) as [Hc ->].
  exists (fresh (dom (maps w))). split; [ exact Hc | ].
  split; [ apply not_elem_of_dom, is_fresh | ]. repeat split.
Qed.

Lemma memory_construction_effect_witness :
  exists this w',
    new_StoreProvider (options "sessionStorage" "app") (browser ∅) = (Ok this, w')
    /\ exists id,
         currentStorage this = MapRef id
         /\ maps (browser ∅) !! id = None
         /\ maps w' = <[id := ∅]> (maps (browser ∅))
         /\ window_localStorage w' = window_localStorage (browser ∅)
         /\ window_sessionStorage w' = window_sessionStorage (browser ∅)
         /\ window w' = window (browser ∅).
Proof.
  eexists _, _. split; [ constructs | ].
  eapply (memory_construction_effect (options "sessionStorage" "app") (browser ∅)).
  - constructs.
  - reflexivity.
Defined.

(** X4: the constructor checks [storeType] before [prefix] and both before
    anything else: an unsupported [storeType] throws an Error whatever the
    prefix is, a non-string prefix with a supported [storeType] throws a
    TypeError, and in both cases the world is as it was. *)
Theorem constructor_errors (o : Options.t) (w : World) :
  (unsupported_storeType o -> new_StoreProvider o w = (Throw JsError, w))
  /\ (~ unsupported_storeType o -> non_string_prefix o ->
      new_StoreProvider o w = (Throw JsTypeError, w)).
Proof.
  unfold unsupported_storeType, non_string_prefix, new_StoreProvider. split.
  - intros [Hne Hnone]. destruct (Options.storeType o); cbn [default_value];
      [ congruence | rewrite Hnone; reflexivity | reflexivity ].
  - intros Hsup Hp. rewrite Hp. cbn [default_value].
    destruct (supported_storeType (default_value (Options.storeType o) (str "localStorage")))
      as [ st | ] eqn:Hst; [ reflexivity | ].
    exfalso. apply Hsup.
    destruct (Options.storeType o); cbn [default_value] in Hst;
      [ discriminate | | ]; split; congruence.
Qed.

Lemma constructor_errors_witness :
  new_StoreProvider {| Options.storeType := StringValue (str "cookie");
                       Options.prefix := OtherValue |} (browser ∅)
  = (Throw JsError, browser ∅)
  /\ new_StoreProvider {| Options.storeType := Undefined;
                          Options.prefix := OtherValue |} (browser ∅)
     = (Throw JsTypeError, browser ∅).
Proof.
  split.
  - apply (constructor_errors
             {| Options.storeType := StringValue (str "cookie");
                Options.prefix := OtherValue |} (browser ∅)).
    split; [ discriminate | reflexivity ].
  - apply (constructor_errors
             {| Options.storeType := Undefined; Options.prefix := OtherValue |}
             (browser ∅)).
    + intros [Hne _]. apply Hne. reflexivity.
    + reflexivity.
Defined.

(** ** What the three operations do to the world *)

(** A removal through one adapter changes no other storage object. *)
Lemma remove_frame (this : StoreProvider) (key : jsstring) (w : World) (c : StorageRef) :
  adapter_ok this -> c <> currentStorage this ->
  stored c (snd (remove (store this) key w)) = stored c w.
Proof.
  intros Hok Hne. destruct Hok as [Hstore Hc]. rewrite Hstore.
  destruct (storeType this); simpl in Hc; [ destruct Hc as [id Hc] | | ];
    rewrite Hc in *; simpl.
  - destruct c as [ id' | | ]; simpl; try reflexivity.
    unfold map_contents. simpl. rewrite lookup_insert_ne by congruence. reflexivity.
  - destruct c; try reflexivity; congruence.
  - destruct c; try reflexivity; congruence.
Qed.

(** No operation of an instance changes whether there is a [window]. *)
Lemma setRaw_window (this : StoreProvider) (key raw : jsstring) (w : World) :
  adapter_ok this -> window (snd (setRaw (store this) key raw w)) = window w.
Proof.
  intros [Hstore Hc]. rewrite Hstore.
  destruct (storeType this); simpl in Hc; [ destruct Hc as [id Hc] | | ];
    rewrite Hc; simpl; try reflexivity; destruct (Storage_put _ _ _); reflexivity.
Qed.

Lemma remove_window (this : StoreProvider) (key : jsstring) (w : World) :
  adapter_ok this -> window (snd (remove (store this) key w)) = window w.
Proof.
  intros [Hstore Hc]. rewrite Hstore.
  destruct (storeType this); simpl in Hc; [ destruct Hc as [id Hc] | | ];
    rewrite Hc; reflexivity.
Qed.

(** The Maps allocated stay allocated. *)
Lemma setRaw_maps (this : StoreProvider) (key raw : jsstring) (w : World) (id : nat) :
  adapter_ok this -> is_Some (maps w !! id) ->
  is_Some (maps (snd (setRaw (store this) key raw w)) !! id).
Proof.
  intros [Hstore Hc] Hid. rewrite Hstore.
  destruct (storeType this); simpl in Hc; [ destruct Hc as [id' Hc] | | ];
    rewrite Hc; simpl; try (destruct (Storage_put _ _ _); exact Hid).
  rewrite lookup_insert. case_decide; [ eauto | exact Hid ].
Qed.

Lemma remove_maps (this : StoreProvider) (key : jsstring) (w : World) (id : nat) :
  adapter_ok this -> is_Some (maps w !! id) ->
  is_Some (maps (snd (remove (store this) key w)) !! id).
Proof.
  intros [Hstore Hc] Hid. rewrite Hstore.
  destruct (storeType this); simpl in Hc; [ destruct Hc as [id' Hc] | | ];
    rewrite Hc; simpl; try exact Hid.
  rewrite lookup_insert. case_decide; [ eauto | exact Hid ].
Qed.

Section Composition.
Context {number : Type} `{JSNumber number}.

(** One call leaves the entry under [u] alone unless it writes or removes a
    key whose derived key is [u]. *)
Lemma perform_lookup (this : StoreProvider) (w : World) (c : call number) (u : jsstring) :
  adapter_ok this ->
  (forall k, call_key c = Some k -> getKey this (Some k) <> u) ->
  backing_store this (perform this w c) !! u = backing_store this w !! u.
Proof.
  intros Hok Hu. destruct c as [ k v | k | k ]; cbn [perform].
  - specialize (Hu k eq_refl).
    destruct (setValue_spec this k v w Hok) as [ [_ Hthrow] | [w' [Hset Hstore]] ].
    + rewrite Hthrow. reflexivity.
    + rewrite Hset. cbn [snd]. rewrite Hstore. apply lookup_insert_ne, Hu.
  - rewrite getValue_spec by exact Hok. reflexivity.
  - specialize (Hu k eq_refl).
    destruct (removeValue_spec this k w Hok) as [w' [Hrem Hstore]].
    rewrite Hrem. cbn [snd]. rewrite Hstore. apply lookup_delete_ne, Hu.
Qed.

Lemma perform_all_lookup (this : StoreProvider) (cs : list (call number)) (w : World)
    (u : jsstring) :
  adapter_ok this ->
  Forall (fun c => forall k, call_key c = Some k -> getKey this (Some k) <> u) cs ->
  backing_store this (perform_all this cs w) !! u = backing_store this w !! u.
Proof.
  intros Hok Hcs. revert w. unfold perform_all.
  induction Hcs as [ | c cs Hc _ IH ]; intros w; cbn [fold_left]; [ reflexivity | ].
  rewrite IH. apply perform_lookup; assumption.
Qed.

(** One call changes no object but the one behind the instance. *)
Lemma perform_object (this : StoreProvider) (w : World) (c : call number) (r : StorageRef) :
  adapter_ok this -> r <> currentStorage this ->
  stored r (perform this w c) = stored r w.
Proof.
  intros Hok Hr. destruct c as [ k v | k | k ]; cbn [perform].
  - unfold setValue. apply setRaw_frame; assumption.
  - rewrite getValue_spec by exact Hok. reflexivity.
  - unfold removeValue. apply remove_frame; assumption.
Qed.

Lemma perform_window (this : StoreProvider) (w : World) (c : call number) :
  adapter_ok this -> window (perform this w c) = window w.
Proof.
  intros Hok. destruct c as [ k v | k | k ]; cbn [perform].
  - unfold setValue. apply setRaw_window, Hok.
  - rewrite getValue_spec by exact Hok. reflexivity.
  - unfold removeValue. apply remove_window, Hok.
Qed.

Lemma perform_all_maps (this : StoreProvider) (cs : list (call number)) (w : World) (id : nat) :
  adapter_ok this -> is_Some (maps w !! id) ->
  is_Some (maps (perform_all this cs w) !! id).
Proof.
  intros Hok. revert w. unfold perform_all.
  induction cs as [ | c cs IH ]; intros w Hid; cbn [fold_left]; [ exact Hid | ].
  apply IH. destruct c as [ k v | k | k ]; cbn [perform].
  - unfold setValue. apply setRaw_maps; assumption.
  - rewrite getValue_spec by exact Hok. exact Hid.
  - unfold removeValue. apply remove_maps; assumption.
Qed.

(** X5: what [getValue(key)] returns does not change as long as no call on
    the instance sets or removes that key, whatever is done with other keys. *)
Theorem value_stable_under_other_calls (o : Options.t) (w0 w1 : World)
    (this : StoreProvider) (key : jsstring) (cs : list (call number)) (w : World) :
  new_StoreProvider o w0 = (Ok this, w1) ->
  Forall (fun c => call_key c <> Some key) cs ->
  fst (getValue (number := number) this key (perform_all this cs w))
  = fst (getValue (number := number) this key w).
Proof.
  intros Hnew Hcs. pose proof (constructed_adapter_ok _ _ _ _ Hnew) as Hok.
  rewrite !getValue_spec by exact Hok. cbn [fst]. f_equal. f_equal.
  apply perform_all_lookup; [ exact Hok | ].
  eapply Forall_impl; [ exact Hcs | ].
  intros c Hc k Hk Heq. apply Hc. rewrite Hk. f_equal. exact (getKey_inj this k key Heq).
Qed.

(** X6: an instance with a non-empty prefix never writes or removes an entry
    outside its namespace: a storage key that is neither the prefix nor the
    prefix followed by ":" and more holds after any calls what it held
    before. *)
Theorem namespace_frame (o : Options.t) (w0 w1 : World) (this : StoreProvider)
    (u : jsstring) (cs : list (call number)) (w : World) :
  new_StoreProvider o w0 = (Ok this, w1) ->
  prefix this <> [] ->
  u <> prefix this ->
  (forall k, u <> prefix this ++ str ":" ++ k) ->
  backing_store this (perform_all this cs w) !! u = backing_store this w !! u.
Proof.
  intros Hnew Hp Hu Hns. pose proof (constructed_adapter_ok _ _ _ _ Hnew) as Hok.
  apply perform_all_lookup; [ exact Hok | ].
  apply Forall_forall. intros c _ k _ Heq.
  destruct k as [ | a k ].
  - rewrite getKey_empty_key in Heq. congruence.
  - rewrite getKey_nonempty in Heq by congruence. exact (Hns (a :: k) (eq_sym Heq)).
Qed.

(** X7: calls on an instance change one object only, the Map or Storage
    behind it: every other Map and the other storage objects hold after
    any calls what they held before, and [window] stays what it was. *)
Theorem calls_change_one_object (o : Options.t) (w0 w1 : World) (this : StoreProvider)
    (r : StorageRef) (cs : list (call number)) (w : World) :
  new_StoreProvider o w0 = (Ok this, w1) ->
  r <> currentStorage this ->
  stored r (perform_all this cs w) = stored r w
  /\ window (perform_all this cs w) = window w.
Proof.
  intros Hnew Hr. pose proof (constructed_adapter_ok _ _ _ _ Hnew) as Hok.
  revert w. unfold perform_all.
  induction cs as [ | c cs IH ]; intros w; cbn [fold_left]; [ split; reflexivity | ].
  destruct (IH (perform this w c)) as [Hs Hw]. rewrite Hs, Hw.
  split; [ apply perform_object | apply perform_window ]; assumption.
Qed.

End Composition.

(** Removing twice is removing once. *)
Lemma remove_twice (this : StoreProvider) (key : jsstring) (w : World) :
  adapter_ok this ->
  snd (remove (store this) key (snd (remove (store this) key w)))
  = snd (remove (store this) key w).
Proof.
  intros [Hstore Hc]. rewrite Hstore.
  destruct (storeType this); simpl in Hc; [ destruct Hc as [id Hc] | | ];
    rewrite Hc; simpl.
  - unfold set_maps, map_contents. simpl.
    rewrite lookup_insert_eq. simpl. rewrite delete_delete_eq, insert_insert_eq.
    reflexivity.
  - unfold set_localStorage, Storage_del. simpl. rewrite delete_delete_eq. reflexivity.
  - unfold set_sessionStorage, Storage_del. simpl. rewrite delete_delete_eq. reflexivity.
Qed.

Section Operations_compose.
Context {number : Type} `{JSNumber number}.

(** X8: [removeValue] never throws; after it the key has no entry; a second
    [removeValue] of the same key leaves the world exactly as the first left
    it; and where the key had no entry the mapping stays as it was. *)
Theorem removeValue_idempotent (o : Options.t) (w0 w1 : World) (this : StoreProvider)
    (key : jsstring) (w : World) :
  new_StoreProvider o w0 = (Ok this, w1) ->
  exists wa,
    removeValue this key w = (Ok tt, wa)
    /\ backing_store this wa !! getKey this (Some key) = None
    /\ removeValue this key wa = (Ok tt, wa)
    /\ (backing_store this w !! getKey this (Some key) = None ->
        backing_store this wa = backing_store this w).
Proof.
  intros Hnew. pose proof (constructed_adapter_ok _ _ _ _ Hnew) as Hok.
  destruct (removeValue_spec this key w Hok) as [wa [Hrem Hstore]].
  exists wa. split; [ exact Hrem | ].
  split; [ rewrite Hstore; apply lookup_delete_eq | ].
  split.
  - destruct (removeValue_spec this key wa Hok) as [wb [Hrem' _]].
    rewrite Hrem'. f_equal.
    pose proof (remove_twice this (getKey this (Some key)) w Hok) as Htwice.
    unfold removeValue in Hrem, Hrem'. rewrite Hrem in Htwice. cbn [snd] in Htwice.
    rewrite Hrem' in Htwice. exact Htwice.
  - intros Hnone. rewrite Hstore. apply delete_id, Hnone.
Qed.

(** X9: on every backend, a [setValue] of a JSON-serializable value that
    returns is read back by [getValue] of the same key as that value. *)
Theorem written_value_reads_back (o : Options.t) (w0 w1 : World) (this : StoreProvider)
    (key : jsstring) (value : json number) (w w' : World) :
  new_StoreProvider o w0 = (Ok this, w1) ->
  setValue this key value w = (Ok tt, w') ->
  serializable value ->
  getValue this key w' = (Ok value, w').
Proof.
  intros Hnew Hset Hser. pose proof (constructed_adapter_ok _ _ _ _ Hnew) as Hok.
  rewrite (setValue_getValue this key value w w' Hok Hset).
  unfold deserialize, serialize. rewrite JSON_parse_stringify by exact Hser. reflexivity.
Qed.

(** X10: the last write wins: after two writes of one key that return, the
    mapping is the one before them with the second text under the derived
    key, and [getValue] returns the second value. *)
Theorem last_write_wins (o : Options.t) (w0 w1 : World) (this : StoreProvider)
    (key : jsstring) (first second : json number) (w wa wb : World) :
  new_StoreProvider o w0 = (Ok this, w1) ->
  setValue this key first w = (Ok tt, wa) ->
  setValue this key second wa = (Ok tt, wb) ->
  backing_store this wb
  = <[getKey this (Some key) := serialize second]> (backing_store this w)
  /\ (serializable second -> getValue this key wb = (Ok second, wb)).
Proof.
  intros Hnew Ha Hb. pose proof (constructed_adapter_ok _ _ _ _ Hnew) as Hok.
  split.
  - destruct (setValue_spec this key first w Hok) as [ [_ Ht] | [wa' [Hset Hstore]] ];
      [ congruence | ].
    assert (wa' = wa) by congruence. subst wa'.
    destruct (setValue_spec this key second wa Hok) as [ [_ Ht] | [wb' [Hset' Hstore']] ];
      [ congruence | ].
    assert (wb' = wb) by congruence. subst wb'.
    rewrite Hstore', Hstore. apply insert_insert_eq.
  - intros Hser. rewrite (setValue_getValue this key second wa wb Hok Hb).
    unfold deserialize, serialize. rewrite JSON_parse_stringify by exact Hser. reflexivity.
Qed.

(** X11: [removeValue] undoes [setValue]: after a write that returns, removing
    the key leaves the mapping without the key and otherwise as before the
    write, exactly as before it when the key had no entry, and [getValue]
    returns null. *)
Theorem remove_undoes_set (o : Options.t) (w0 w1 : World) (this : StoreProvider)
    (key : jsstring) (value : json number) (w wa : World) :
  new_StoreProvider o w0 = (Ok this, w1) ->
  setValue this key value w = (Ok tt, wa) ->
  exists wb,
    removeValue this key wa = (Ok tt, wb)
    /\ backing_store this wb = delete (getKey this (Some key)) (backing_store this w)
    /\ (backing_store this w !! getKey this (Some key) = None ->
        backing_store this wb = backing_store this w)
    /\ getValue this key wb = (Ok (@JNull number), wb).
Proof.
  intros Hnew Hset. pose proof (constructed_adapter_ok _ _ _ _ Hnew) as Hok.
  destruct (setValue_spec this key value w Hok) as [ [_ Ht] | [wa' [Hset' Hstore]] ];
    [ congruence | ].
  assert (wa' = wa) by congruence. subst wa'.
  destruct (removeValue_spec this key wa Hok) as [wb [Hrem Hstore']].
  exists wb. split; [ exact Hrem | ].
  assert (Hwb : backing_store this wb
                = delete (getKey this (Some key)) (backing_store this w)).
  { rewrite Hstore', Hstore. apply delete_insert_eq. }
  split; [ exact Hwb | ]. split.
  - intros Hnone. rewrite Hwb. apply delete_id, Hnone.
  - rewrite getValue_spec by exact Hok. rewrite Hwb, lookup_delete_eq. reflexivity.
Qed.

(** X13: an instance created after any calls on a memory instance, and ending
    on memory itself, has a Map of its own: whatever the prefixes and the
    keys, a write through either instance leaves what the other reads
    unchanged. *)
Theorem memory_instances_isolated (oa ob : Options.t) (wa wa' wb' : World)
    (a b : StoreProvider) (cs : list (call number)) :
  new_StoreProvider oa wa = (Ok a, wa') ->
  storeType a = memory ->
  new_StoreProvider ob (perform_all a cs wa') = (Ok b, wb') ->
  storeType b = memory ->
  currentStorage a <> currentStorage b
  /\ forall (u : World) (key key' : jsstring) (value : json number),
       fst (getValue (number := number) b key' (snd (setValue a key value u)))
       = fst (getValue (number := number) b key' u)
       /\ fst (getValue (number := number) a key' (snd (setValue b key value u)))
          = fst (getValue (number := number) a key' u).
Proof.
  intros Ha Hma Hb Hmb.
  pose proof (constructed_adapter_ok _ _ _ _ Ha) as Hoka.
  pose proof (constructed_adapter_ok _ _ _ _ Hb) as Hokb.
  destruct (constructed_memory _ _ _ _ Ha Hma) as [Hca ->].
  destruct (constructed_memory _ _ _ _ Hb Hmb) as [Hcb _].
  assert (Hne : currentStorage a <> currentStorage b).
  { rewrite Hca, Hcb. intros [= Heq].
    assert (Hin : is_Some (maps (perform_all a cs (allocated wa))
                             !! fresh (dom (maps wa)))).
    { apply perform_all_maps; [ exact Hoka | ].
      unfold allocated. simpl. rewrite lookup_insert_eq. eauto. }
    rewrite Heq in Hin. apply elem_of_dom in Hin. exact (is_fresh _ Hin). }
  split; [ exact Hne | ].
  intros u key key' value. rewrite !getValue_spec by assumption.
  unfold backing_store, setValue. cbn [fst].
  rewrite !setRaw_frame by (assumption || congruence). split; reflexivity.
Qed.

(** X14: what was written through an instance on a persistent backend, and
    a later construction with the same [storeType] and a prefix that trims
    to the same string, in a world with a [window] that hands the storage
    object out.  When the probe write of that construction is accepted, the
    new instance is on the same backend and reads the value, unless the
    derived key is the probe's "__ws_test__", which construction removes.
    When the probe write is refused, the new instance is on memory and reads
    null, although the storage object still holds the text. *)
Theorem persisted_value_survives (oa ob : Options.t) (wa wa' : World)
    (a : StoreProvider) (pb key : jsstring) (value : json number) (w w1 : World) :
  new_StoreProvider oa wa = (Ok a, wa') ->
  storeType a <> memory ->
  setValue a key value w = (Ok tt, w1) ->
  supported_storeType (default_value (Options.storeType ob) (str "localStorage"))
  = Some (storeType a) ->
  default_value (Options.prefix ob) (str "test-app") = StringValue pb ->
  trim pb = prefix a ->
  window w1 = true ->
  readable (currentStorage a) w1 = true ->
  (refuses (currentStorage a) w1 probe_key (str "1") = false ->
   getKey a (Some key) <> probe_key ->
   serializable value ->
   exists b w2,
     new_StoreProvider ob w1 = (Ok b, w2)
     /\ storeType b = storeType a
     /\ getValue b key w2 = (Ok value, w2))
  /\ (refuses (currentStorage a) w1 probe_key (str "1") = true ->
      exists b w2,
        new_StoreProvider ob w1 = (Ok b, w2)
        /\ storeType b = memory
        /\ getValue b key w2 = (Ok (@JNull number), w2)
        /\ stored (currentStorage a) w2 !! getKey a (Some key) = Some (serialize value)).
Proof.
  intros Ha Hpa Hset Hst Hp Htrim Hw Hread.
  pose proof (constructed_adapter_ok _ _ _ _ Ha) as Hoka.
  destruct (constructed_persistent _ _ _ _ Ha Hpa) as [_ [Hba _]].
  assert (Hb : storage_blocked (storeType a) w1 = false).
  { destruct (storeType a); simpl in Hba; [ discriminate | | ];
      injection Hba as Hba; rewrite <- Hba in Hread; simpl in Hread |- *;
      apply negb_true_iff, Hread. }
  destruct (setValue_spec a key value w Hoka) as [ [_ Ht] | [w1' [Hset' Hstore]] ];
    [ congruence | ].
  assert (w1' = w1) by congruence. subst w1'. unfold backing_store in Hstore.
  rewrite (new_StoreProvider_spec ob w1 (storeType a) pb Hst Hp), initStorage_spec,
    Hba, Hw, Hb.
  split; intros Hr; rewrite Hr.
  - intros Hprobe Hser. eexists _, _. split; [ reflexivity | ].
    split; [ reflexivity | ].
    match goal with
    | |- getValue ?this _ _ = _ =>
        assert (Hokb : adapter_ok this) by (split; [ reflexivity | apply Hoka ]);
        assert (Hkey : getKey this (Some key) = getKey a (Some key))
          by (unfold getKey; cbn [prefix]; rewrite Htrim; reflexivity)
    end.
    rewrite getValue_spec by exact Hokb. unfold backing_store. cbn [currentStorage].
    destruct (probed_stored _ w1 _ Hba Hr) as [Hstored _].
    rewrite Hstored, Hkey, lookup_delete_ne by congruence.
    rewrite Hstore, lookup_insert_eq.
    unfold deserialize, serialize. rewrite JSON_parse_stringify by exact Hser.
    reflexivity.
  - eexists _, _. split; [ reflexivity | ]. split; [ reflexivity | ]. split.
    + match goal with
      | |- getValue ?this _ _ = _ =>
          assert (Hokb : adapter_ok this) by (split; [ reflexivity | simpl; eauto ])
      end.
      rewrite getValue_spec by exact Hokb. unfold backing_store. cbn [currentStorage stored].
      unfold allocated. rewrite map_contents_set, lookup_empty. reflexivity.
    + assert (Hkeep : stored (currentStorage a) (allocated w1)
                      = stored (currentStorage a) w1).
      { destruct (storeType a); simpl in Hba; [ discriminate | | ];
          injection Hba as <-; reflexivity. }
      rewrite Hkeep, Hstore. apply lookup_insert_eq.
Qed.

(** X15: a number that is not finite does not come back: it is stored as
    the text null and read as null. *)
Theorem nonfinite_reads_back_null (o : Options.t) (w0 w1 : World) (this : StoreProvider)
    (key : jsstring) (n : number) (w w' : World) :
  new_StoreProvider o w0 = (Ok this, w1) ->
  Number_isFinite n = false ->
  setValue this key (JNum n) w = (Ok tt, w') ->
  backing_store this w' !! getKey this (Some key) = Some (str "null")
  /\ getValue this key w' = (Ok (@JNull number), w').
Proof.
  intros Hnew Hn Hset. pose proof (constructed_adapter_ok _ _ _ _ Hnew) as Hok.
  assert (Hraw : serialize (JNum n) = str "null")
    by (unfold serialize; cbn [JSON_stringify]; rewrite Hn; reflexivity).
  split.
  - destruct (setValue_spec this key (JNum n) w Hok) as [ [_ Ht] | [w2 [Hset' Hstore]] ];
      [ congruence | ].
    assert (w2 = w') by congruence. subst w2.
    rewrite Hstore, lookup_insert_eq, Hraw. reflexivity.
  - rewrite (setValue_getValue this key (JNum n) w w' Hok Hset), Hraw.
    unfold deserialize. rewrite JSON_parse_null. reflexivity.
Qed.

End Operations_compose.

(** X16: one instance never derives the same storage key from two
    different keys. *)
Theorem keys_never_collide (this : StoreProvider) (k1 k2 : jsstring) :
  getKey this (Some k1) = getKey this (Some k2) <-> k1 = k2.
Proof. split; [ apply getKey_inj | intros ->; reflexivity ]. Qed.

(** ** Sample runs of the further properties *)

Lemma value_stable_under_other_calls_witness :
  exists this w1,
    new_StoreProvider (options "memory" "t") server = (Ok this, w1)
    /\ let cs := [SetValue (str "b") (JNum 2%Z); RemoveValue (str "c");
                  GetValue (str "a")] in
       fst (getValue (number := Z) this (str "a") (perform_all this cs w1))
       = fst (getValue (number := Z) this (str "a") w1).
Proof.
  eexists _, _. split; [ constructs | ].
  eapply (value_stable_under_other_calls (number := Z) (options "memory" "t") server _ _).
  - constructs.
  - repeat constructor; discriminate.
Defined.

Lemma namespace_frame_witness :
  exists this w1,
    new_StoreProvider (options "localStorage" "app")
      (browser {[ str "other" := str "x" ]}) = (Ok this, w1)
    /\ let cs := [SetValue (str "other") (JNum 2%Z); RemoveValue (str "other")] in
       backing_store this (perform_all this cs w1) !! str "other"
       = backing_store this w1 !! str "other".
Proof.
  eexists _, _. split; [ constructs | ].
  eapply (namespace_frame (number := Z) (options "localStorage" "app")
            (browser {[ str "other" := str "x" ]}) _ _).
  - constructs.
  - discriminate.
  - discriminate.
  - intros k. discriminate.
Defined.

Lemma calls_change_one_object_witness :
  exists this w1,
    new_StoreProvider (options "memory" "app")
      (browser {[ str "app:a" := str "1" ]}) = (Ok this, w1)
    /\ let cs := [SetValue (str "a") (JNum 2%Z); RemoveValue (str "a")] in
       stored LocalStorageRef (perform_all this cs w1) = stored LocalStorageRef w1
       /\ window (perform_all this cs w1) = window w1.
Proof.
  eexists _, _. split; [ constructs | ].
  eapply (calls_change_one_object (number := Z) (options "memory" "app")
            (browser {[ str "app:a" := str "1" ]}) _ _).
  - constructs.
  - discriminate.
Defined.

Lemma removeValue_idempotent_witness :
  exists this w1,
    new_StoreProvider (options "localStorage" "app")
      (browser {[ str "app:a" := str "1" ]}) = (Ok this, w1)
    /\ exists wa,
         removeValue this (str "a") w1 = (Ok tt, wa)
         /\ backing_store this wa !! getKey this (Some (str "a")) = None
         /\ removeValue this (str "a") wa = (Ok tt, wa)
         /\ (backing_store this w1 !! getKey this (Some (str "a")) = None ->
             backing_store this wa = backing_store this w1).
Proof.
  eexists _, _. split; [ constructs | ].
  eapply (removeValue_idempotent (options "localStorage" "app")
            (browser {[ str "app:a" := str "1" ]}) _ _).
  constructs.
Defined.

Lemma written_value_reads_back_witness :
  exists this w1,
    new_StoreProvider (options "localStorage" "app")
      (browser {[ str "app:a" := str "old" ]}) = (Ok this, w1)
    /\ exists w2,
         setValue this (str "a") (JArr [JNum 7%Z; JStr (str "x")]) w1 = (Ok tt, w2)
         /\ getValue this (str "a") w2 = (Ok (JArr [JNum 7%Z; JStr (str "x")]), w2).
Proof.
  eexists _, _. split; [ constructs | ].
  match goal with
  | |- exists w2, setValue ?this ?key ?value ?w = _ /\ _ =>
      exists (snd (setValue this key value w)); split; [ reflexivity | ];
      eapply (written_value_reads_back (number := Z) (options "localStorage" "app")
                (browser {[ str "app:a" := str "old" ]}) _ this key value w)
  end.
  - constructs.
  - reflexivity.
  - simpl. repeat split. repeat constructor.
Defined.

Lemma last_write_wins_witness :
  exists this w1,
    new_StoreProvider (options "memory" "app") server = (Ok this, w1)
    /\ exists wa wb,
         setValue this (str "a") (JNum 1%Z) w1 = (Ok tt, wa)
         /\ setValue this (str "a") (JBool true) wa = (Ok tt, wb)
         /\ backing_store this wb = {[ str "app:a" := str "true" ]}
         /\ getValue this (str "a") wb = (Ok (JBool true), wb).
Proof.
  eexists _, _. split; [ constructs | ].
  match goal with
  | |- exists wa wb, setValue ?this ?key ?first ?w = _ /\ setValue _ _ ?second _ = _ /\ _ =>
      exists (snd (setValue this key first w));
      exists (snd (setValue this key second (snd (setValue this key first w))));
      split; [ reflexivity | ]; split; [ reflexivity | ];
      destruct (last_write_wins (number := Z) (options "memory" "app") server _
                  this key first second w _ _ ltac:(constructs) eq_refl eq_refl)
        as [Hstore Hget]
  end.
  split.
  - etransitivity; [ exact Hstore | ]. vm_compute. reflexivity.
  - apply Hget. exact I.
Defined.

Lemma remove_undoes_set_witness :
  exists this w1,
    new_StoreProvider (options "localStorage" "app")
      (browser {[ str "app:a" := str "1" ]}) = (Ok this, w1)
    /\ exists wa wb,
         setValue this (str "a") (JNum 2%Z) w1 = (Ok tt, wa)
         /\ removeValue this (str "a") wa = (Ok tt, wb)
         /\ backing_store this wb = delete (str "app:a") (backing_store this w1)
         /\ getValue this (str "a") wb = (Ok (@JNull Z), wb).
Proof.
  eexists _, _. split; [ constructs | ].
  match goal with
  | |- exists wa wb, setValue ?this ?key ?value ?w = _ /\ _ =>
      exists (snd (setValue this key value w));
      destruct (remove_undoes_set (number := Z) (options "localStorage" "app")
                  (browser {[ str "app:a" := str "1" ]}) _
                  this key value w _ ltac:(constructs) eq_refl)
        as [wb [Hrem [Hstore [_ Hget]]]]
  end.
  exists wb. split; [ reflexivity | ]. split; [ exact Hrem | ].
  split; [ exact Hstore | exact Hget ].
Defined.

Lemma memory_instances_isolated_witness :
  exists a wa' b wb',
    new_StoreProvider (options "memory" "app") server = (Ok a, wa')
    /\ new_StoreProvider (options "memory" "app")
         (perform_all a [SetValue (str "k") (JNum 1%Z)] wa') = (Ok b, wb')
    /\ currentStorage a <> currentStorage b
    /\ fst (getValue (number := Z) b (str "k")
              (snd (setValue a (str "k") (JNum 2%Z) wb')))
       = fst (getValue (number := Z) b (str "k") wb').
Proof.
  eexists _, _, _, _. split; [ constructs | ]. split; [ constructs | ].
  match goal with
  | |- currentStorage ?a <> currentStorage ?b /\ fst (getValue _ _ (snd (setValue _ _ _ ?w))) = _ =>
      destruct (memory_instances_isolated (number := Z)
                  (options "memory" "app") (options "memory" "app") server _ _
                  a b [SetValue (str "k") (JNum 1%Z)]
                  ltac:(constructs) eq_refl ltac:(constructs) eq_refl)
        as [Hne Hframe];
      split; [ exact Hne | exact (proj1 (Hframe w (str "k") (str "k") (JNum 2%Z))) ]
  end.
Defined.

Lemma persisted_value_survives_witness :
  exists a wa' w1 b w2,
    new_StoreProvider (options "localStorage" "app") (browser ∅) = (Ok a, wa')
    /\ setValue a (str "k") (JNum 5%Z) wa' = (Ok tt, w1)
    /\ new_StoreProvider (options "localStorage" " app ") w1 = (Ok b, w2)
    /\ storeType b = storeType a
    /\ getValue b (str "k") w2 = (Ok (JNum 5%Z), w2).
Proof.
  eexists _, _, _. 
  match goal with
  | |- exists b w2, ?A /\ ?B /\ _ =>
      assert (Ha : A) by constructs;
      assert (Hset : B) by reflexivity
  end.
  destruct (persisted_value_survives (number := Z)
              (options "localStorage" "app") (options "localStorage" " app ")
              (browser ∅) _ _ (str " app ") (str "k") (JNum 5%Z) _ _
              Ha ltac:(discriminate) Hset eq_refl eq_refl eq_refl eq_refl eq_refl)
    as [Hreads _].
  destruct (Hreads eq_refl ltac:(discriminate) ltac:(simpl; repeat split))
    as [b [w2 [Hb [Hst Hget]]]].
  exists b, w2. auto.
Defined.

Lemma nonfinite_reads_back_null_witness :
  exists this w1,
    new_StoreProvider (options "memory" "app") server = (Ok this, w1)
    /\ exists w2,
         @setValue (option Z) option_Z_JSNumber this (str "a") (JNum None) w1
         = (Ok tt, w2)
         /\ @getValue (option Z) option_Z_JSNumber this (str "a") w2 = (Ok JNull, w2).
Proof.
  eexists _, _. split; [ constructs | ].
  match goal with
  | |- exists w2, setValue ?this ?key ?value ?w = _ /\ _ =>
      exists (snd (@setValue (option Z) option_Z_JSNumber this key value w));
      split; [ reflexivity | ];
      eapply (@nonfinite_reads_back_null (option Z) option_Z_JSNumber
                (options "memory" "app") server _ this key None w)
  end.
  - constructs.
  - reflexivity.
  - reflexivity.
Defined.
